(* Verification of the stable-fit controller, the recursive residual engine
   and the outlier screeners of the nrt package (nrt/stability.py and
   nrt/outliers.py).

   Part I embeds the Python code: numpy float64 values are IEEE binary64
   numbers (SpecFloat), 2-D arrays are kept by columns (axis 0 runs inside a
   column), Python exceptions are values of a result type, arrays shared with
   the caller live in an object store, and the regression providers of
   nrt.fit_methods (ols, rirls) are parameters.  The recursive residual
   engine is embedded over an exact ordered field, with MathComp matrices.

   Part II states and proves the properties. *)

From Stdlib Require Import ZArith Lia SpecFloat.
From HB Require Import structures.
From mathcomp Require Import boot order algebra.
Set Implicit Arguments.
Unset Strict Implicit.
Unset Printing Implicit Defensive.

Import Order.Theory GRing.Theory Num.Theory.

Delimit Scope Z_scope with coq_Z.

(* ------------------------------------------------------------------ *)
(* Part I: the embedding                                               *)
(* ------------------------------------------------------------------ *)

(* Python exceptions and indexing *)
Module Py.

Inductive exn :=
  | FullYearError
  | IndexError
  | ShapeError
  | LinAlgError
  | ZeroDivisionError
  | ValueError
  | TypeError
  | ProviderError.

Inductive result (A : Type) := Ok (a : A) | Raise (e : exn).
Arguments Ok {A} a.
Arguments Raise {A} e.

Definition bind {A B} (m : result A) (k : A -> result B) : result B :=
  match m with Ok a => k a | Raise e => Raise e end.

Definition provider {A} (r : option A) : result A :=
  if r is Some a then Ok a else Raise ProviderError.

Definition getitem {T} (s : seq T) (i : int) : result T :=
  let k := match i with Posz k => k | Negz k => size s - k.+1 end in
  let inside := match i with Posz k => k < size s | Negz k => k < size s end in
  if inside then (if drop k s is x :: _ then Ok x else Raise IndexError)
  else Raise IndexError.

Definition setitem {T} (s : seq T) (i : int) (v : T) : result (seq T) :=
  let k := match i with Posz k => k | Negz k => size s - k.+1 end in
  let inside := match i with Posz k => k < size s | Negz k => k < size s end in
  if inside then Ok (set_nth v s k v) else Raise IndexError.

End Py.
Import Py.

Declare Scope py_scope.
Delimit Scope py_scope with py.
Notation "x <- m ;; k" := (bind m (fun x => k))
  (at level 100, m at next level, right associativity) : py_scope.
Notation "' pat <- m ;; k" := (bind m (fun x => match x with pat => k end))
  (at level 100, pat pattern, m at next level, right associativity) : py_scope.
Local Open Scope py_scope.

Module Np.

Definition float := spec_float.
Definition prec : Z := 53%coq_Z.
Definition emax : Z := 1024%coq_Z.

Definition nan : float := S754_nan.
Definition isnan (x : float) : bool := if x is S754_nan then true else false.
Definition fadd : float -> float -> float := SFadd prec emax.
Definition fsub : float -> float -> float := SFsub prec emax.
Definition fmul : float -> float -> float := SFmul prec emax.
Definition fdiv : float -> float -> float := SFdiv prec emax.
Definition fsqrt : float -> float := SFsqrt prec emax.
Definition fopp : float -> float := SFopp.
Definition fabs : float -> float := SFabs.
Definition flt : float -> float -> bool := SFltb.
Definition fgt (x y : float) : bool := SFltb y x.
Definition of_Z (z : Z) : float := binary_normalize prec emax z 0%coq_Z false.
Definition of_nat (n : nat) : float := of_Z (Z.of_nat n).
Definition zero : float := S754_zero false.

(* astype(float32): round to binary32, kept as the binary64 number of the
   same value *)
Definition to_f32 (x : float) : float :=
  match x with
  | S754_finite s m e =>
      match binary_normalize 24%coq_Z 128%coq_Z (cond_Zopp s (Zpos m)) e s with
      | S754_finite s' m' e' =>
          binary_normalize prec emax (cond_Zopp s' (Zpos m')) e' s'
      | r => r
      end
  | _ => x
  end.

(* 2-D array, one inner sequence per column *)
Definition matrix := seq (seq float).
Definition shape0 (a : matrix) : nat := if a is c :: _ then size c else 0.
Definition shape1 (a : matrix) : nat := size a.

Definition full (n k : nat) (v : float) : matrix := nseq k (nseq n v).

Definition getrow (i : nat) (a : matrix) : result (seq float) :=
  if all (fun c => i < size c) a then Ok [seq nth nan c i | c <- a]
  else Raise IndexError.

Definition getrow_last (a : matrix) : result (seq float) :=
  if all (fun c => 0 < size c) a then Ok [seq last nan c | c <- a]
  else Raise IndexError.

Definition select_cols (T : Type) (m : seq bool) (a : seq T) : result (seq T) :=
  if size m == size a then Ok (mask m a) else Raise IndexError.

Fixpoint scatter (T V : Type) (f : T -> V -> T)
    (m : seq bool) (a : seq T) (vals : seq V) : seq T :=
  match m, a with
  | b :: m', c :: a' =>
      if b then
        if vals is v :: vals' then f c v :: scatter f m' a' vals' else a
      else c :: scatter f m' a' vals
  | _, _ => a
  end.

Definition put_masked (T V : Type) (f : T -> V -> T)
    (m : seq bool) (a : seq T) (vals : seq V) : result (seq T) :=
  if size m != size a then Raise IndexError
  else if count id m != size vals then Raise ShapeError
  else Ok (scatter f m a vals).

Definition setitem_cols (start : nat) (m : seq bool) (a vals : matrix)
  : result matrix :=
  if size m != size a then Raise IndexError
  else if ~~ all (fun v => size v == shape0 a - start) vals
  then Raise ShapeError
  else put_masked (fun c v => take start c ++ [seq to_f32 x | x <- v]) m a vals.

Definition fill_cols (v : float) (m : seq bool) (a : matrix) : result matrix :=
  if size m == size a
  then Ok [seq (if bc.1 then nseq (size bc.2) v else bc.2) | bc <- zip m a]
  else Raise IndexError.

Definition neg_start (n r : nat) : nat := if r == 0 then 0 else n - r.

Definition broadcast2 (A B C : Type) (f : A -> B -> C) (a : seq A) (b : seq B)
  : result (seq C) :=
  if size a == size b then Ok [seq f xy.1 xy.2 | xy <- zip a b]
  else match a, b with
       | [:: x], _ => Ok [seq f x y | y <- b]
       | _, [:: y] => Ok [seq f x y | x <- a]
       | _, _ => Raise ShapeError
       end.

Definition nansum (c : seq float) : float :=
  foldl fadd zero [seq (if isnan v then zero else v) | v <- c].

Definition count_valid (c : seq float) : nat := count (fun v => ~~ isnan v) c.

Definition nanmean (c : seq float) : float :=
  fdiv (nansum c) (of_nat (count_valid c)).

End Np.
Import Np.

Module Stability.

Definition is_stable_ccdc (slope : seq float) (residuals : matrix)
    (threshold : float) : result (seq bool) :=
  let rmse := [seq fsqrt (nanmean [seq fmul v v | v <- c]) | c <- residuals] in
  q <- broadcast2 fdiv slope rmse ;;
  let slope_rmse := [seq flt v threshold | v <- q] in
  r0 <- getrow 0 residuals ;;
  q0 <- broadcast2 fdiv r0 rmse ;;
  let first := [seq flt v threshold | v <- q0] in
  rl <- getrow_last residuals ;;
  ql <- broadcast2 fdiv rl rmse ;;
  let last := [seq flt v threshold | v <- ql] in
  sf <- broadcast2 andb slope_rmse first ;;
  broadcast2 andb sf last.

Definition timedelta64_Y (delta : Z) : Z := (delta * 400 / 146097)%coq_Z.

Definition under_a_year (delta : Z) : bool := (timedelta64_Y delta <? 1)%coq_Z.

Record fit_state := FitState {
  is_stable : seq bool;
  enough : seq bool;
  y_sub : matrix;
  X_sub : matrix;
  beta : matrix;
  residuals : matrix }.

Definition active (st : fit_state) : seq bool :=
  [seq ~~ se.1 && se.2 | se <- zip (is_stable st) (enough st)].

Definition all_done (st : fit_state) : bool :=
  all (fun se => se.1 || ~~ se.2) (zip (is_stable st) (enough st)).

Definition enough_obs (p : nat) (y : matrix) : seq bool :=
  [seq 3 * p < 2 * count_valid c | c <- y].

Section Controller.

Variable ols : matrix -> matrix -> option (matrix * matrix).

Definition fit_and_check (threshold : float) (st : fit_state)
  : result fit_state :=
  fit <- provider (ols (X_sub st) (y_sub st)) ;;
  let beta_sub := fit.1 in
  let residuals_sub := fit.2 in
  beta1 <- setitem_cols 0 (active st) (beta st) beta_sub ;;
  res0 <- fill_cols nan (active st) (residuals st) ;;
  res1 <- setitem_cols (neg_start (shape0 res0) (shape0 (y_sub st)))
            (active st) res0 residuals_sub ;;
  slope <- getrow 1 beta_sub ;;
  is_stable_sub <- is_stable_ccdc slope residuals_sub threshold ;;
  is_stable1 <- put_masked (fun _ v => v) (active st) (is_stable st)
                  is_stable_sub ;;
  y1 <- select_cols [seq ~~ b | b <- is_stable_sub] (y_sub st) ;;
  Ok (FitState is_stable1 (enough st) [seq drop 2 c | c <- y1]
        [seq drop 2 c | c <- X_sub st] beta1 res1).

Definition recheck_enough (p : nat) (st : fit_state) : result fit_state :=
  let enough_sub := enough_obs p (y_sub st) in
  enough1 <- put_masked (fun _ v => v) (active st) (enough st) enough_sub ;;
  y2 <- select_cols enough_sub (y_sub st) ;;
  Ok (FitState (is_stable st) enough1 y2 (X_sub st) (beta st) (residuals st)).

Fixpoint fit_loop (threshold : float) (p : nat) (last_date : Z)
    (dates : seq Z) (st : fit_state) {struct dates} : result fit_state :=
  if all_done st then Ok st
  else
    st1 <- fit_and_check threshold st ;;
    match dates with
    | _ :: _ :: ((first_date :: _) as dates') =>
        if under_a_year (last_date - first_date) then Ok st1
        else st2 <- recheck_enough p st1 ;;
             fit_loop threshold p last_date dates' st2
    | _ => Raise IndexError
    end.

Inductive reach (threshold : float) (p : nat) (last_date : Z)
    (dates0 : seq Z) (st0 : fit_state) : seq Z -> fit_state -> Prop :=
  | reach_start : reach threshold p last_date dates0 st0 dates0 st0
  | reach_iter d0 d1 d2 ds st st1 st2 :
      reach threshold p last_date dates0 st0 [:: d0, d1, d2 & ds] st ->
      all_done st = false ->
      fit_and_check threshold st = Ok st1 ->
      under_a_year (last_date - d2) = false ->
      recheck_enough p st1 = Ok st2 ->
      reach threshold p last_date dates0 st0 (d2 :: ds) st2.

Definition fit_init (X y : matrix) : fit_state :=
  let p := shape1 X in
  let enough := enough_obs p y in
  FitState (nseq (size enough) false) enough (mask enough y) X
    (full p (shape1 y) nan) (full (shape0 y) (shape1 y) nan).

Definition ccdc_stable_fit (X y : matrix) (dates : seq Z) (threshold : float)
  : result (matrix * matrix * seq bool) :=
  let st0 := fit_init X y in
  first_date <- getitem dates 0 ;;
  last_date <- getitem dates (-1) ;;
  if under_a_year (last_date - first_date) then Raise FullYearError
  else
    st <- fit_loop threshold (shape1 X) last_date dates st0 ;;
    Ok (beta st, residuals st, is_stable st).

End Controller.
End Stability.

(* recresid over an exact ordered field *)
Module Recresid.
Section Exact.
Local Open Scope ring_scope.

Variable F : realFieldType.
Variable sqrtF : F -> F.
Variable p : nat.

Inductive npfloat := NaN | Inf (neg : bool) | Fin (x : F).

Definition np_sqrt (a : npfloat) : npfloat :=
  match a with
  | NaN => NaN
  | Inf neg => if neg then NaN else Inf false
  | Fin x => if x < 0 then NaN else Fin (sqrtF x)
  end.

Definition np_div (a b : npfloat) : npfloat :=
  match a, b with
  | NaN, _ | _, NaN => NaN
  | Inf _, Inf _ => NaN
  | Inf s, Fin y => Inf (s (+) (y < 0))
  | Fin _, Inf _ => Fin 0
  | Fin x, Fin y =>
      if y == 0 then (if x == 0 then NaN else Inf (x < 0)) else Fin (x / y)
  end.

Definition dotTX (X0 : seq 'rV[F]_p) : 'M[F]_p :=
  \matrix_(a, b) \sum_(x <- X0) x 0 a * x 0 b.

Definition dotTy_val (X0 : seq 'rV[F]_p) (y0 : seq F) : 'cV[F]_p :=
  \col_a \sum_(xy <- zip X0 y0) xy.1 0 a * xy.2.

Definition dotTy (X0 : seq 'rV[F]_p) (y0 : seq F) : result 'cV[F]_p :=
  if size X0 == size y0 then Ok (dotTy_val X0 y0) else Raise ShapeError.

Definition linalg_inv (A : 'M[F]_p) : result 'M[F]_p :=
  if A \in unitmx then Ok (invmx A) else Raise LinAlgError.

Definition dot11 (x : 'rV[F]_p) (c : 'cV[F]_p) : F := (x *m c) 0 0.

Record rstate := RState {
  XTX_j : 'M[F]_p;
  beta : 'cV[F]_p;
  recresid_ : seq npfloat;
  recvar : seq npfloat }.

Definition recresid_init (X : seq 'rV[F]_p) (y : seq F) (span : nat)
  : result rstate :=
  let nobs := size X in
  let X0 := take span X in
  let y0 := take span y in
  XTX_j <- linalg_inv (dotTX X0) ;;
  XTY <- dotTy X0 y0 ;;
  let beta := XTX_j *m XTY in
  x <- getitem X (span%:Z - 1) ;;
  let yhat_j := dot11 x beta in
  y_l <- getitem y (span%:Z - 1) ;;
  r_ <- setitem (nseq nobs NaN) (span%:Z - 1) (Fin (y_l - yhat_j)) ;;
  v_ <- setitem (nseq nobs NaN) (span%:Z - 1)
          (Fin (1 + dot11 x (XTX_j *m x^T))) ;;
  Ok (RState XTX_j beta r_ v_).

Definition recresid_step (X : seq 'rV[F]_p) (y : seq F) (st : rstate) (j : nat)
  : result rstate :=
  let x_j := nth 0 X j in
  y_j <- getitem y j ;;
  let resid_j := y_j - dot11 x_j (beta st) in
  let XTXx_j := XTX_j st *m x_j^T in
  let f_t := 1 + dot11 x_j XTXx_j in
  r_ <- setitem (recresid_ st) j (Fin resid_j) ;;
  v_ <- setitem (recvar st) j (Fin f_t) ;;
  Ok (RState
        (XTX_j st - map_mx (fun v => v / f_t) (XTXx_j *m XTXx_j^T))
        (beta st + map_mx (fun v => v * resid_j / f_t) XTXx_j)
        r_ v_).

Fixpoint recresid_loop (X : seq 'rV[F]_p) (y : seq F) (st : rstate)
  (js : seq nat) : result rstate :=
  match js with
  | [::] => Ok st
  | j :: js' => st' <- recresid_step X y st j ;; recresid_loop X y st' js'
  end.

Definition recresid_upto (X : seq 'rV[F]_p) (y : seq F) (span j : nat)
  : result rstate :=
  st <- recresid_init X y span ;;
  recresid_loop X y st (iota span (j.+1 - span)).

Definition recresid_arrays (X : seq 'rV[F]_p) (y : seq F) (span : nat)
  : result rstate :=
  st <- recresid_init X y span ;;
  recresid_loop X y st (iota span (size X - span)).

Definition recresid (X : seq 'rV[F]_p) (y : seq F) (span : nat)
  : result (seq npfloat) :=
  st <- recresid_arrays X y span ;;
  Ok [seq np_div rv.1 (np_sqrt rv.2) | rv <- zip (recresid_ st) (recvar st)].

Definition ols_batch (X : seq 'rV[F]_p) (y : seq F) : 'cV[F]_p :=
  invmx (dotTX X) *m dotTy_val X y.

Definition ssr (X : seq 'rV[F]_p) (y : seq F) (b : 'cV[F]_p) : F :=
  \sum_(xy <- zip X y) (xy.2 - dot11 xy.1 b) ^+ 2.

Section Run.

Variables (X : seq 'rV[F]_p) (y : seq F).

Definition resid_at (k i : nat) : F :=
  nth 0 y i - dot11 (nth 0 X i) (ols_batch (take k X) (take k y)).

Definition var_at (k i : nat) : F :=
  1 + dot11 (nth 0 X i) (invmx (dotTX (take k X)) *m (nth 0 X i)^T).

Definition Minv (k : nat) (st : rstate) : Prop :=
  [/\ dotTX (take k X) \in unitmx,
      XTX_j st = invmx (dotTX (take k X)),
      beta st = ols_batch (take k X) (take k y),
      size (recresid_ st) = size X
    & size (recvar st) = size X].

End Run.

End Exact.
End Recresid.

(* The object store: numpy arrays are mutable objects that callers and
   callees share by reference.  An address is a position in the store. *)
Module Heap.

Record ndarray3 := Ndarray3 {
  dim0 : nat;
  dim1 : nat;
  dim2 : nat;
  values : seq float }.

Inductive obj :=
  | Arr (a : matrix)
  | Cube (c : ndarray3)
  | Dates (d : seq Z)
  | Flags (b : seq bool).

Definition addr := nat.
Definition heap := seq obj.

(* a computation that may raise and that keeps the store it reached *)
Definition M (A : Type) := heap -> result A * heap.

Definition ret {A} (a : A) : M A := fun h => (Ok a, h).

Definition throw {A} (e : exn) : M A := fun h => (Raise e, h).

Definition bindM {A B} (m : M A) (k : A -> M B) : M B :=
  fun h => match m h with
           | (Ok a, h1) => k a h1
           | (Raise e, h1) => (Raise e, h1)
           end.

Definition lift {A} (r : result A) : M A := fun h => (r, h).

Definition alloc (o : obj) : M addr := fun h => (Ok (size h), rcons h o).

Definition load (r : addr) : M obj :=
  fun h => if r < size h then (Ok (nth (Flags [::]) h r), h)
           else (Raise TypeError, h).

Definition store (r : addr) (o : obj) : M unit :=
  fun h => if r < size h then (Ok tt, set_nth o h r o)
           else (Raise TypeError, h).

Definition load_arr (r : addr) : M matrix :=
  bindM (load r) (fun o => if o is Arr a then ret a else throw TypeError).

Definition load_cube (r : addr) : M ndarray3 :=
  bindM (load r) (fun o => if o is Cube c then ret c else throw TypeError).

Definition load_dates (r : addr) : M (seq Z) :=
  bindM (load r) (fun o => if o is Dates d then ret d else throw TypeError).

End Heap.
Import Heap.

Declare Scope heap_scope.
Delimit Scope heap_scope with heap.
Notation "x <~ m ;; k" := (bindM m (fun x => k))
  (at level 100, m at next level, right associativity) : heap_scope.

Module Outliers.
Import Stability.

Local Open Scope heap_scope.

(* the literal 0.04 as the nearest binary64 number *)
Definition c004 : float := S754_finite false 5764607523034235 (-57).

(* np.nanstd(..., axis=0) on one column, ddof = 0 *)
Definition nanvar (c : seq float) : float :=
  let cnt := of_nat (count_valid c) in
  let avg := fdiv (nansum c) cnt in
  let sqr := [seq (if isnan v then zero
                   else let d := fsub v avg in fmul d d) | v <- c] in
  fdiv (foldl fadd zero sqr) cnt.

Definition nanstd (c : seq float) : float := fsqrt (nanvar c).

Definition same_shape (T U : Type) (a : seq (seq T)) (b : seq (seq U)) : bool :=
  (size a == size b) && all2 (fun c d => size c == size d) a b.

(* a[mask] = v for a boolean mask of the shape of a *)
Definition setitem_mask (m : seq (seq bool)) (a : matrix) (v : float)
  : result matrix :=
  if same_shape m a
  then Ok [seq [seq (if bx.1 then v else bx.2) | bx <- zip mc.1 mc.2]
          | mc <- zip m a]
  else Raise IndexError.

Definition logical_or (a b : seq (seq bool)) : result (seq (seq bool)) :=
  if same_shape a b
  then Ok [seq [seq xy.1 || xy.2 | xy <- zip cd.1 cd.2] | cd <- zip a b]
  else Raise ShapeError.

Definition count_nonzero (m : seq (seq bool)) : nat :=
  sumn [seq count id c | c <- m].

(* values.reshape((n, k)), kept by columns *)
Definition reshape2 (n k : nat) (vals : seq float) : result matrix :=
  if size vals == n * k
  then Ok [seq [seq nth nan vals (t * k + j) | t <- iota 0 n] | j <- iota 0 k]
  else Raise ValueError.

Definition shewhart_mask (L : float) (residuals_full : matrix)
  : seq (seq bool) :=
  [seq (let sigma := nanstd c in
        [seq fgt (fabs v) (fmul L sigma) | v <- c]) | c <- residuals_full].

Definition is_outlier_at (scaling_factor g_res s_res : float) : bool :=
  fgt g_res (fmul c004 scaling_factor)
  || flt s_res (fmul (fopp c004) scaling_factor).

Section Screeners.

Variables ols rirls : matrix -> matrix -> option (matrix * matrix).

Definition shewhart (X y : addr) (L : float) : M addr :=
  Xv <~ load_arr X ;;
  yv <~ load_arr y ;;
  fit <~ lift (provider (ols Xv yv)) ;;
  let residuals_full := fit.2 in
  y1 <~ lift (setitem_mask (shewhart_mask L residuals_full) yv nan) ;;
  _ <~ store y (Arr y1) ;;
  ret y.

Definition ccdc_rirls (X y green swir : addr) (scaling_factor : float)
  : M addr :=
  Xv <~ load_arr X ;;
  yv <~ load_arr y ;;
  g <~ load_cube green ;;
  s <~ load_cube swir ;;
  let shape_flat := (dim0 g, dim1 g * dim2 g) in
  green_flat <~ lift (reshape2 shape_flat.1 shape_flat.2
                        [seq to_f32 v | v <- values g]) ;;
  swir_flat <~ lift (reshape2 shape_flat.1 shape_flat.2
                       [seq to_f32 v | v <- values s]) ;;
  gfit <~ lift (provider (rirls Xv green_flat)) ;;
  sfit <~ lift (provider (rirls Xv swir_flat)) ;;
  let g_residuals := gfit.2 in
  let s_residuals := sfit.2 in
  is_outlier <~ lift (logical_or
      [seq [seq fgt v (fmul c004 scaling_factor) | v <- c] | c <- g_residuals]
      [seq [seq flt v (fmul (fopp c004) scaling_factor) | v <- c]
          | c <- s_residuals]) ;;
  y1 <~ lift (setitem_mask is_outlier yv nan) ;;
  _ <~ store y (Arr y1) ;;
  if count_valid (values g) == 0 then throw ZeroDivisionError
  else ret y.

(* a call of the stable-fit controller on arrays of the store *)
Definition ccdc_stable_fit_call (X y dates : addr) (threshold : float)
  : M (addr * addr * addr) :=
  Xv <~ load_arr X ;;
  yv <~ load_arr y ;;
  dv <~ load_dates dates ;;
  out <~ lift (ccdc_stable_fit ols Xv yv dv threshold) ;;
  beta <~ alloc (Arr out.1.1) ;;
  residuals <~ alloc (Arr out.1.2) ;;
  is_stable <~ alloc (Flags out.2) ;;
  ret (beta, residuals, is_stable).

End Screeners.
End Outliers.

(* A provider for designs of one or two columns (normal equations in
   binary64), used to run the code on concrete arrays. *)
Module Provider.

Definition dot_valid (y a b : seq float) : float :=
  foldl fadd zero
    [seq (if isnan t.1 then zero else fmul t.2.1 t.2.2) | t <- zip y (zip a b)].

Definition ols_column (X : matrix) (y : seq float)
  : option (seq float * seq float) :=
  match X with
  | [:: x0] =>
      let b0 := fdiv (dot_valid y x0 y) (dot_valid y x0 x0) in
      Some ([:: b0], [seq fsub t.1 (fmul b0 t.2) | t <- zip y x0])
  | [:: x0; x1] =>
      let a := dot_valid y x0 x0 in
      let b := dot_valid y x0 x1 in
      let c := dot_valid y x1 x1 in
      let u := dot_valid y x0 y in
      let v := dot_valid y x1 y in
      let det := fsub (fmul a c) (fmul b b) in
      let b0 := fdiv (fsub (fmul c u) (fmul b v)) det in
      let b1 := fdiv (fsub (fmul a v) (fmul b u)) det in
      Some ([:: b0; b1],
            [seq fsub t.1 (fadd (fmul b0 t.2.1) (fmul b1 t.2.2))
               | t <- zip y (zip x0 x1)])
  | _ => None
  end.

Fixpoint ols_small (X y : matrix) : option (matrix * matrix) :=
  match y with
  | [::] => Some ([::], [::])
  | c :: y' =>
      if ols_column X c is Some fit then
        if ols_small X y' is Some rest
        then Some (fit.1 :: rest.1, fit.2 :: rest.2)
        else None
      else None
  end.

End Provider.
Import Provider.

(* Predicates in which the properties of the controller are stated *)
Module StabilitySpec.
Import Py Np Stability.

Definition first_valid (c : seq float) : float :=
  head nan [seq v <- c | ~~ isnan v].
Definition last_valid (c : seq float) : float :=
  last nan [seq v <- c | ~~ isnan v].
Definition stable_as_claimed (thr s : float) (c : seq float) : bool :=
  let rmse := fsqrt (nanmean [seq fmul v v | v <- c]) in
  [&& flt (fdiv (fabs s) rmse) thr,
      flt (fdiv (fabs (first_valid c)) rmse) thr
    & flt (fdiv (fabs (last_valid c)) rmse) thr].

Definition stable_col (thr s : float) (c : seq float) : bool :=
  let rmse := fsqrt (nanmean [seq fmul v v | v <- c]) in
  flt (fdiv s rmse) thr && flt (fdiv (nth nan c 0) rmse) thr
  && flt (fdiv (last nan c) rmse) thr.

Fixpoint refine (m : seq bool) (m2 : seq bool) : seq bool :=
  match m with
  | [::] => [::]
  | b :: m' =>
      if b then (if m2 is v :: m2' then v :: refine m' m2' else false :: refine m' [::])
      else false :: refine m' m2
  end.

Definition act_of (s e : seq bool) : seq bool :=
  [seq ~~ se.1 && se.2 | se <- zip s e].

Definition store_f32 (start : nat) (c v : seq float) : seq float :=
  take start c ++ [seq to_f32 x | x <- v].

Definition filled (v : float) (m : seq bool) (a : matrix) : matrix :=
  [seq (if bc.1 then nseq (size bc.2) v else bc.2) | bc <- zip m a].

Definition stable_at (st : fit_state) (j : nat) : bool :=
  nth false (is_stable st) j.

Definition insufficient_at (st : fit_state) (j : nat) : bool :=
  ~~ nth false (enough st) j.

Definition iterating_at (st : fit_state) (j : nat) : bool :=
  nth false (active st) j.

Definition Part (k : nat) (st : fit_state) : Prop :=
  [/\ size (is_stable st) = k, size (enough st) = k
    & forall j, stable_at st j -> ~~ insufficient_at st j].

Definition quiet (A : Type) (r : result A) : Prop := r <> Raise FullYearError.

Definition provider_ok (ols : matrix -> matrix -> option (matrix * matrix))
    (p : nat) : Prop :=
  forall Xs ys r,
    size Xs = p -> all (fun c => size c == r) Xs ->
    all (fun c => size c == r) ys ->
    exists bs rs,
      [/\ ols Xs ys = Some (bs, rs), size bs = size ys,
          all (fun c => size c == p) bs, size rs = size ys
        & all (fun c => size c == r) rs].

Section LoopInvariant.

Variable ols : matrix -> matrix -> option (matrix * matrix).
Variables (X y : matrix) (n : nat).

Record Inv (w : nat) (st : fit_state) : Prop := MkInv {
  inv_s : size (is_stable st) = size y;
  inv_e : size (enough st) = size y;
  inv_b : size (beta st) = size y;
  inv_r : size (residuals st) = size y;
  inv_se : forall j, nth false (is_stable st) j -> nth false (enough st) j;
  inv_y : y_sub st = [seq drop w c | c <- mask (active st) y];
  inv_X : X_sub st = [seq drop w c | c <- X];
  inv_rows : all (fun c => size c == n) (residuals st);
  inv_brows : all (fun c => size c == size X) (beta st) }.

Definition Enough (st : fit_state) : Prop :=
  all (fun c => 3 * size X < 2 * count_valid c) (y_sub st).

Definition fitted_at (w j : nat) (col : seq float) : Prop :=
  exists act bs rs,
    [/\ w < n /\ nth false act j, size act = size y,
        ols [seq drop w c | c <- X] [seq drop w c | c <- mask act y]
          = Some (bs, rs),
        size (nth [::] rs (count id (take j act))) = n - w
      & col = nseq w nan
              ++ [seq to_f32 v | v <- nth [::] rs (count id (take j act))]].

End LoopInvariant.

Definition is_zero (x : float) : bool :=
  if x is S754_zero _ then true else false.

Section FinalFit.

Variable ols : matrix -> matrix -> option (matrix * matrix).
Variables (X y : matrix) (thr : float) (n : nat).

(* column j was last fitted on the rows w.. of X and of the columns act of
   y: its coefficients, residuals and flag all come from this one fit *)
Definition fit_of (w j : nat) (bcol rcol : seq float) (flag : bool) : Prop :=
  exists act bs rs,
    let k := count id (take j act) in
    [/\ [/\ w < n, 3 * size X < 2 * (n - w), nth false act j
          & size act = size y],
        ols [seq drop w c | c <- X] [seq drop w c | c <- mask act y]
          = Some (bs, rs),
        size (nth [::] bs k) = size X /\ size (nth [::] rs k) = n - w,
        bcol = [seq to_f32 v | v <- nth [::] bs k] /\
        rcol = nseq w nan ++ [seq to_f32 v | v <- nth [::] rs k]
      & flag = stable_col thr (nth nan (nth [::] bs k) 1) (nth [::] rs k)].

End FinalFit.

End StabilitySpec.

(* Predicates in which the properties of the screeners are stated *)
Module OutliersSpec.
Import Py Np Heap Outliers.

Definition holds (h : heap) (r : addr) (o : obj) : Prop :=
  r < size h /\ nth (Flags [::]) h r = o.

Definition outlier_as_claimed (scaling_factor g_res s_res : float) : bool :=
  fgt (fabs g_res) (fmul c004 scaling_factor)
  || fgt (fabs s_res) (fmul c004 scaling_factor).

Definition zip2 (T U V : Type) (g : T -> U -> V)
    (a : seq (seq T)) (b : seq (seq U)) : seq (seq V) :=
  [seq [seq g xy.1 xy.2 | xy <- zip cd.1 cd.2] | cd <- zip a b].

Definition put_nan (m : seq (seq bool)) (a : matrix) : matrix :=
  zip2 (fun b x => if b then nan else x) m a.

(* the store after y[m] = nan on the array yv held at address y *)
Definition masked_store (h : heap) (y : addr) (yv : matrix)
    (m : seq (seq bool)) : heap :=
  set_nth (Arr (put_nan m yv)) h y (Arr (put_nan m yv)).

End OutliersSpec.

(* Reading a recorded value of recresid *)
Module RecresidSpec.
Import Recresid.
Local Open Scope ring_scope.

(* the number held in an array cell, 0 for NaN and the infinities *)
Definition fin_val (F : realFieldType) (a : npfloat F) : F :=
  if a is Fin x then x else 0.

End RecresidSpec.

(* Concrete arrays *)
Module Examples.
Import Py Np Stability Heap Outliers Provider.

Definition f (z : Z) := of_Z z.
Definition X8 : matrix := [:: nseq 8 (f 1); [seq of_nat i | i <- iota 0 8]].
Definition D8 : seq Z := [seq Z.of_nat (i * 100) | i <- iota 0 8].
Definition col0 := [seq f z | z <- [:: 1; 3; 2; 4; 3; 5; 4; 6]%coq_Z].
Definition col1 := [seq f z | z <- [:: 90; -80; 2; 4; 3; 5; 4; 6]%coq_Z].
Definition col2 := f 1 :: f 2 :: nseq 6 nan.
Definition Y8 : matrix := [:: col0; col1; col2].

Definition thr1 : float := f 1.
Definition fit8 : matrix * matrix * seq bool :=
  Eval vm_compute in
    match ccdc_stable_fit ols_small X8 Y8 D8 thr1 with
    | Ok t => t
    | Raise _ => ([::], [::], [::])
    end.
Definition st8_0 : fit_state := fit_init X8 Y8.
Definition st8_1 : fit_state :=
  Eval vm_compute in
    match fit_and_check ols_small thr1 st8_0 with
    | Ok s => s
    | Raise _ => st8_0
    end.
Definition st8_2 : fit_state :=
  Eval vm_compute in
    match recheck_enough 2 st8_1 with Ok s => s | Raise _ => st8_1 end.

Definition X4 : matrix := [:: nseq 4 (f 1)].
Definition Y4 : matrix := [:: [seq f z | z <- [:: 1; 2; 3; 4]%coq_Z]].
Definition D4 : seq Z := [:: 0; 200; 400; 600]%coq_Z.
Definition st8_end : fit_state :=
  Eval vm_compute in
    match fit_loop ols_small thr1 2 700%coq_Z D8 st8_0 with
    | Ok s => s
    | Raise _ => st8_0
    end.

Definition G4 : ndarray3 :=
  Ndarray3 4 1 1 [seq f z | z <- [:: 1; 1; 1; 0]%coq_Z].
Definition S4 : ndarray3 :=
  Ndarray3 4 1 1 [seq f z | z <- [:: 1; 1; 1; 2]%coq_Z].
Definition h4 : heap := [:: Arr X4; Arr Y4; Cube G4; Cube S4; Dates D4].
Definition quarter : float := fdiv (f 1) (f 4).
Definition G4_fit : matrix * matrix :=
  ([:: [:: fmul (f 3) quarter]],
   [:: [:: quarter; quarter; quarter; fopp (fmul (f 3) quarter)]]).
Definition S4_fit : matrix * matrix :=
  ([:: [:: fmul (f 5) quarter]],
   [:: [:: fopp quarter; fopp quarter; fopp quarter; fmul (f 3) quarter]]).
Definition h8 : heap := [:: Arr X8; Arr Y8; Dates D8; Cube G4; Cube S4].
Definition G0 : ndarray3 := Ndarray3 4 1 1 (nseq 4 nan).
Definition h0 : heap := [:: Arr X4; Arr Y4; Cube G0; Cube S4; Dates D4].

Definition X3 : seq 'rV[rat]_1 := [:: 1%:M; 0; 0]%R.
Definition y3 : seq rat := [:: 3%:R; 5%:R; 7%:R]%R.
Definition X2 : seq 'rV[rat]_2 := [:: row_mx 1%:M 0; row_mx 1%:M 1%:M]%R.
Definition y2 : seq rat := [:: 1%:R; 2%:R]%R.

End Examples.

(* ------------------------------------------------------------------ *)
(* Part II: properties                                                 *)
(* ------------------------------------------------------------------ *)

Module PyFacts.
Import Py.

Lemma getitem_nat T (x0 : T) (s : seq T) (k : nat) :
  k < size s -> getitem s k = Ok (nth x0 s k).
Proof. by move=> lt_ks; rewrite /getitem lt_ks (drop_nth x0 lt_ks). Qed.

Lemma getitem_last T (x0 : T) (s : seq T) :
  0 < size s -> getitem s (Negz 0) = Ok (nth x0 s (size s).-1).
Proof.
move=> s_gt0; rewrite /getitem s_gt0 subn1 (drop_nth x0) //.
by rewrite prednK.
Qed.

Lemma setitem_nat T (s : seq T) (k : nat) v :
  k < size s -> setitem s k v = Ok (set_nth v s k v).
Proof. by move=> lt_ks; rewrite /setitem lt_ks. Qed.

Lemma setitem_last T (s : seq T) v :
  0 < size s -> setitem s (Negz 0) v = Ok (set_nth v s (size s).-1 v).
Proof. by move=> s_gt0; rewrite /setitem s_gt0 subn1. Qed.

Lemma nth_setitem T (x0 v : T) (s : seq T) (k i : nat) :
  k < size s -> nth x0 (set_nth v s k v) i = if i == k then v else nth x0 s i.
Proof.
move=> lt_ks; rewrite set_nthE lt_ks nth_cat size_takel; first exact: ltnW.
case: (ltngtP i k) => [lt_ik|lt_ki|->]; rewrite ?subnn //.
  by rewrite nth_take.
by rewrite -(subnSK lt_ki) /= nth_drop subnKC.
Qed.

Lemma size_setitem T (v : T) (s : seq T) (k : nat) :
  k < size s -> size (set_nth v s k v) = size s.
Proof. by move=> lt_ks; rewrite size_set_nth; apply/maxn_idPr. Qed.

Lemma predZ (k : nat) : (k.+1%:Z - 1)%R = k.
Proof. by rewrite -addn1 PoszD addrK. Qed.

Lemma pred0Z : (0%:Z - 1)%R = Negz 0.
Proof. by []. Qed.

End PyFacts.

Module RecresidFacts.
Import Py PyFacts Recresid RecresidSpec Examples.
Local Open Scope py_scope.

Section Exact.
Local Open Scope ring_scope.

Variable F : realFieldType.
Variable sqrtF : F -> F.
Variable p : nat.

Local Notation npfloat := (Recresid.npfloat F).
Local Notation NaN := (Recresid.NaN F).
Local Notation rstate := (Recresid.rstate F p).
Local Notation np_sqrt := (Recresid.np_sqrt sqrtF).
Local Notation recresid := (Recresid.recresid sqrtF).

Lemma dot11E (x : 'rV[F]_p) (c : 'cV[F]_p) : x *m c = (dot11 x c)%:M.
Proof. by rewrite /dot11 -mx11_scalar. Qed.

Lemma dotTX_sum (X0 : seq 'rV[F]_p) : dotTX X0 = \sum_(x <- X0) x^T *m x.
Proof.
apply/matrixP => a b; rewrite mxE summxE; apply: eq_bigr => x _.
by rewrite !mxE big_ord1 !mxE.
Qed.

Lemma sherman_morrison (A M : 'M[F]_p) (x : 'rV[F]_p) :
  A *m M = 1%:M -> M^T = M ->
  let g := M *m x^T in
  let f := 1 + dot11 x g in
  f != 0 ->
  (A + x^T *m x) *m (M - f^-1 *: (g *m g^T)) = 1%:M.
Proof.
move=> AM Msym g f fN0.
have Ag : A *m g = x^T by rewrite /g mulmxA AM mul1mx.
have xM : x *m M = g^T by rewrite /g trmx_mul trmxK Msym.
have xg : x *m g = (f - 1)%:M by rewrite dot11E /f addrC addKr.
clearbody f; clearbody g.
rewrite mulmxBr mulmxDl AM -[x^T *m x *m M]mulmxA xM.
rewrite -scalemxAr mulmxDl !mulmxA Ag -[x^T *m x *m g]mulmxA xg.
rewrite mul_mx_scalar -scalemxAl -{2}[x^T *m g^T]scale1r -scalerDl.
by rewrite [1 + _]addrC subrK scalerA mulVf // scale1r addrK.
Qed.

Lemma dotTy_sum (X0 : seq 'rV[F]_p) (y0 : seq F) :
  dotTy_val X0 y0 = \sum_(xy <- zip X0 y0) xy.2 *: xy.1^T.
Proof.
apply/matrixP => a b; rewrite mxE summxE; apply: eq_bigr => x _.
by rewrite !mxE mulrC [b]ord1.
Qed.

Lemma dotTX_sym (s : seq 'rV[F]_p) : (dotTX s)^T = dotTX s.
Proof.
by apply/matrixP => a b; rewrite !mxE; apply: eq_bigr => x _; rewrite mulrC.
Qed.

Lemma invmx_sym (A : 'M[F]_p) : A^T = A -> (invmx A)^T = invmx A.
Proof. by move=> As; rewrite trmx_inv As. Qed.

Lemma quad_dotTX_ge0 (s : seq 'rV[F]_p) (v : 'cV[F]_p) :
  0 <= (v^T *m dotTX s *m v) 0 0.
Proof.
rewrite dotTX_sum mulmx_sumr mulmx_suml summxE; apply: sumr_ge0 => x _.
rewrite mulmxA -mulmxA -trmx_mul dot11E tr_scalar_mx -scalar_mxM mxE eqxx mulr1n.
exact: sqr_ge0.
Qed.

Lemma leverage_ge0 (s : seq 'rV[F]_p) (x : 'rV[F]_p) :
  dotTX s \in unitmx -> 0 <= dot11 x (invmx (dotTX s) *m x^T).
Proof.
move=> Gu; set v := invmx _ *m _.
have xE : x = v^T *m dotTX s.
  by rewrite -[LHS]trmxK -[x^T]mul1mx -(mulmxV Gu) -mulmxA trmx_mul dotTX_sym.
by rewrite /dot11 {1}xE; apply: quad_dotTX_ge0.
Qed.

Lemma dotTX_rcons (s : seq 'rV[F]_p) x :
  dotTX (rcons s x) = dotTX s + x^T *m x.
Proof. by rewrite !dotTX_sum -cats1 big_cat big_seq1. Qed.

Lemma dotTy_rcons (s : seq 'rV[F]_p) (t : seq F) x v :
  size s = size t ->
  dotTy_val (rcons s x) (rcons t v) = dotTy_val s t + v *: x^T.
Proof. by move=> st; rewrite !dotTy_sum zip_rcons // -cats1 big_cat big_seq1. Qed.

Lemma beta_update (M : 'M[F]_p) (x : 'rV[F]_p) (b : 'cV[F]_p) (yk : F) :
  M^T = M ->
  let g := M *m x^T in
  let f := 1 + dot11 x g in
  f != 0 ->
  (M - f^-1 *: (g *m g^T)) *m (b + yk *: x^T)
  = M *m b + ((yk - dot11 x (M *m b)) / f) *: g.
Proof.
move=> Msym g f fN0.
have xM : x *m M = g^T by rewrite /g trmx_mul trmxK Msym.
have xg : x *m g = (f - 1)%:M by rewrite dot11E /f addrC addKr.
have gb : g^T *m b = (dot11 x (M *m b))%:M by rewrite -xM -mulmxA dot11E.
have gx : g^T *m x^T = (f - 1)%:M by rewrite -xM -mulmxA -/g.
have Mx : M *m x^T = g by [].
clearbody f; clearbody g.
rewrite mulmxBl !mulmxDr -!scalemxAr -!scalemxAl Mx -!mulmxA gb gx.
rewrite !mul_mx_scalar -addrA; congr (_ + _).
rewrite !scalerA -scalerDl -scalerBl; congr (_ *: _).
by field.
Qed.

Lemma map_mx_div m n (A : 'M[F]_(m, n)) (f : F) :
  map_mx (fun v => v / f) A = f^-1 *: A.
Proof. by apply/matrixP => a b; rewrite !mxE mulrC. Qed.

Lemma map_mx_muldiv m n (A : 'M[F]_(m, n)) (r f : F) :
  map_mx (fun v => v * r / f) A = (r / f) *: A.
Proof. by apply/matrixP => a b; rewrite !mxE -mulrA mulrC. Qed.

Lemma dot11D (x : 'rV[F]_p) (u w : 'cV[F]_p) :
  dot11 x (u + w) = dot11 x u + dot11 x w.
Proof. by rewrite /dot11 mulmxDr mxE. Qed.

Lemma normal_equations (X : seq 'rV[F]_p) (y : seq F) :
  dotTX X \in unitmx -> dotTX X *m ols_batch X y = dotTy_val X y.
Proof. by move=> Gu; rewrite /ols_batch mulmxA mulmxV // mul1mx. Qed.

Lemma cross_term0 (X : seq 'rV[F]_p) (y : seq F) (d : 'cV[F]_p) :
  size y = size X -> dotTX X \in unitmx ->
  \sum_(xy <- zip X y) (xy.2 - dot11 xy.1 (ols_batch X y)) * dot11 xy.1 d = 0.
Proof.
move=> size_y Gu; set b := ols_batch X y.
pose w : 'rV[F]_p := \sum_(xy <- zip X y) (xy.2 - dot11 xy.1 b) *: xy.1.
have -> : \sum_(xy <- zip X y) (xy.2 - dot11 xy.1 b) * dot11 xy.1 d
          = (w *m d) 0 0.
  rewrite /w mulmx_suml summxE; apply: eq_bigr => xy _.
  by rewrite -scalemxAl mxE.
suff -> : w = 0 by rewrite mul0mx mxE.
apply: trmx_inj; rewrite trmx0 /w raddf_sum /=.
under eq_bigr => xy _.
  rewrite linearZ /= scalerBl -[dot11 _ _ *: _]mul_mx_scalar -dot11E mulmxA.
  over.
rewrite sumrB -dotTy_sum -mulmx_suml.
rewrite -(big_map fst xpredT (fun x => x^T *m x)).
have -> : [seq i.1 | i <- zip X y] = X by apply: unzip1_zip; rewrite size_y.
by rewrite -dotTX_sum normal_equations // subrr.
Qed.

Lemma ols_batch_least_squares (X : seq 'rV[F]_p) (y : seq F) (b : 'cV[F]_p) :
  size y = size X -> dotTX X \in unitmx ->
  ssr X y (ols_batch X y) <= ssr X y b.
Proof.
move=> size_y Gu; set b0 := ols_batch X y; pose d := b - b0.
have -> : ssr X y b
  = ssr X y b0 + \sum_(xy <- zip X y) (dot11 xy.1 d) ^+ 2
    - \sum_(xy <- zip X y) (xy.2 - dot11 xy.1 b0) * dot11 xy.1 d *+ 2.
  rewrite /ssr -big_split -sumrB /=; apply: eq_bigr => xy _.
  have -> : b = b0 + d by rewrite /d addrC subrK.
  by rewrite dot11D opprD addrA sqrrB addrAC.
rewrite sumrMnl cross_term0 // mul0rn subr0 lerDl.
by apply: sumr_ge0 => xy _; apply: sqr_ge0.
Qed.

Section Run.

Variables (X : seq 'rV[F]_p) (y : seq F).
Hypothesis size_y : size y = size X.

Local Notation resid_at := (Recresid.resid_at X y).
Local Notation var_at := (Recresid.var_at X).
Local Notation Minv := (Recresid.Minv X y).

Lemma step_Minv k st :
  (k < size X)%N -> Minv k st ->
  exists st',
    [/\ recresid_step X y st k = Ok st', Minv k.+1 st',
        recresid_ st' = set_nth (Fin (resid_at k k)) (recresid_ st) k
                          (Fin (resid_at k k))
      & recvar st' = set_nth (Fin (var_at k k)) (recvar st) k
                          (Fin (var_at k k))].
Proof.
move=> lt_kn [Gu ME bE sr sv].
have lt_ky : (k < size y)%N by rewrite size_y.
set x := nth 0 X k; set g := XTX_j st *m x^T; set f := 1 + dot11 x g.
have f_gt0 : 0 < f.
  by rewrite /f /g ME; apply: ltr_wpDr => //; apply: leverage_ge0.
have fN0 : f != 0 by rewrite gt_eqF.
have Msym : (XTX_j st)^T = XTX_j st by rewrite ME invmx_sym // dotTX_sym.
have GE : dotTX (take k.+1 X) = dotTX (take k X) + x^T *m x.
  by rewrite (take_nth 0 lt_kn) dotTX_rcons.
have SM := @sherman_morrison _ _ x (mulmxV Gu) (invmx_sym (dotTX_sym _)).
rewrite -ME -/g -/f -GE in SM; have {SM} SM := SM fN0.
have [Gu' _] := mulmx1_unit SM.
have ME' : XTX_j st - f^-1 *: (g *m g^T) = invmx (dotTX (take k.+1 X)).
  by rewrite -[LHS]mul1mx -(mulVmx Gu') -mulmxA SM mulmx1.
exists (RState (XTX_j st - map_mx (fun v => v / f) (g *m g^T))
          (beta st + map_mx (fun v => v * resid_at k k / f) g)
          (set_nth (Fin (resid_at k k)) (recresid_ st) k (Fin (resid_at k k)))
          (set_nth (Fin (var_at k k)) (recvar st) k (Fin (var_at k k)))).
split=> //.
- rewrite /recresid_step (getitem_nat 0 lt_ky) /= !setitem_nat ?sr ?sv //=.
  by rewrite /resid_at /var_at -bE -ME.
- split=> //=; rewrite ?size_set_nth ?sr ?sv; try by apply/maxn_idPr.
  + by rewrite map_mx_div.
  + rewrite map_mx_muldiv /ols_batch -ME' (take_nth 0 lt_kn) (take_nth 0 lt_ky).
    rewrite dotTy_rcons ?size_take ?size_y // beta_update //.
    by rewrite /resid_at -/x -bE -/g -/f bE /ols_batch ME.
Qed.

Lemma loop_Minv m : forall k st,
  (k + m <= size X)%N -> Minv k st ->
  exists st',
    [/\ recresid_loop X y st (iota k m) = Ok st', Minv (k + m) st',
        forall i, (k <= i < k + m)%N ->
          nth NaN (recresid_ st') i = Fin (resid_at i i)
          /\ nth NaN (recvar st') i = Fin (var_at i i)
      & forall i, ~~ (k <= i < k + m)%N ->
          nth NaN (recresid_ st') i = nth NaN (recresid_ st) i
          /\ nth NaN (recvar st') i = nth NaN (recvar st) i].
Proof.
elim: m => [|m IHm] k st le_km inv_k.
  exists st; split=> //; first by rewrite addn0.
  by move=> i; rewrite addn0; case: ltngtP.
have lt_kn : (k < size X)%N by apply: leq_trans le_km; rewrite addnS ltnS leq_addr.
have [st1 [step1 inv1 r1 v1]] := step_Minv lt_kn inv_k.
have [|st' [loop' inv' inside outside]] := IHm k.+1 st1 _ inv1.
  by rewrite addSn -addnS.
have [_ _ _ sr sv] := inv_k.
exists st'; split; first by rewrite /= step1.
- by rewrite addnS -addSn.
- move=> i /andP[le_ki lt_i]; move: le_ki; rewrite leq_eqVlt => /orP[/eqP <-|lt_ki].
    have [|-> ->] := outside k; first by rewrite ltnn.
    by rewrite r1 v1 !nth_setitem ?sr ?sv // eqxx.
  by apply: inside; rewrite lt_ki addSn -addnS.
- move=> i out_i.
  have [|-> ->] := outside i.
    apply: contra out_i => /andP[lt_ki lt_i].
    by rewrite (ltnW lt_ki) addnS -addSn.
  rewrite r1 v1 !nth_setitem ?sr ?sv //.
  case: eqP => // eq_ik; move: out_i.
  by rewrite eq_ik leqnn addnS ltnS leq_addr.
Qed.

Lemma init_Minv span :
  (span <= size X)%N -> (0 < size X)%N -> dotTX (take span X) \in unitmx ->
  exists st,
    [/\ recresid_init X y span = Ok st, Minv span st
      & forall i, (0 < span)%N ->
          nth NaN (recresid_ st) i
            = (if i == span.-1 then Fin (resid_at span i) else NaN)
          /\ nth NaN (recvar st) i
            = (if i == span.-1 then Fin (var_at span i) else NaN)].
Proof.
move=> le_sn n_gt0 Gu.
rewrite /recresid_init /linalg_inv Gu /= /dotTy !size_take size_y eqxx /=.
case: span le_sn Gu => [|k] lt_kn Gu.
  rewrite pred0Z !(getitem_last 0) ?size_y //= !setitem_last ?size_nseq //=.
  eexists; split; first by [].
    by split=> //=; rewrite size_setitem size_nseq // prednK.
  by [].
have lt_ky : (k < size y)%N by rewrite size_y.
rewrite predZ !(getitem_nat 0) //= !setitem_nat ?size_nseq //=.
eexists; split; first by [].
  by split=> //=; rewrite size_setitem size_nseq.
move=> i _ /=; rewrite !nth_setitem ?size_nseq // !nth_nseq !if_same.
by rewrite /resid_at /var_at; case: eqP => // ->.
Qed.

Lemma init_unit span st :
  recresid_init X y span = Ok st -> dotTX (take span X) \in unitmx.
Proof. by rewrite /recresid_init /linalg_inv; case: ifP. Qed.

Lemma upto_Minv span j :
  (span <= j < size X)%N -> dotTX (take span X) \in unitmx ->
  exists2 st, recresid_upto X y span j = Ok st & Minv j.+1 st.
Proof.
case/andP=> le_sj lt_jn Gu.
have [||st0 [init0 inv0 _]] := @init_Minv span _ _ Gu.
- exact: leq_trans le_sj (ltnW lt_jn).
- exact: leq_ltn_trans lt_jn.
have [|st [loopE invE _ _]] := @loop_Minv (j.+1 - span) span st0 _ inv0.
  by rewrite subnKC // ltnW.
by exists st; rewrite /recresid_upto ?init0 //= -[j.+1](@subnKC span) // ltnW.
Qed.

Lemma arrays_Minv span :
  (0 < span < size X)%N -> dotTX (take span X) \in unitmx ->
  exists st,
    [/\ recresid_arrays X y span = Ok st,
        size (recresid_ st) = size X, size (recvar st) = size X,
        forall j, (j < span.-1)%N ->
          nth NaN (recresid_ st) j = NaN /\ nth NaN (recvar st) j = NaN
      & forall j, (span.-1 <= j < size X)%N ->
          nth NaN (recresid_ st) j = Fin (resid_at (maxn span j) j)
          /\ nth NaN (recvar st) j = Fin (var_at (maxn span j) j)].
Proof.
case/andP=> span_gt0 lt_sn Gu.
have [||st0 [init0 inv0 arr0]] := @init_Minv span _ _ Gu.
- exact: ltnW.
- exact: leq_ltn_trans lt_sn.
have [|st [loopE [_ _ _ sr sv] inside outside]]
  := @loop_Minv (size X - span) span st0 _ inv0.
  by rewrite subnKC // ltnW.
have sE : (span + (size X - span) = size X)%N by rewrite subnKC // ltnW.
rewrite sE in inside outside.
exists st; split=> //; first by rewrite /recresid_arrays init0.
- move=> j lt_j.
  have [|-> ->] := outside j.
    by rewrite negb_and -ltnNge (leq_trans lt_j) // leq_pred.
  by have [-> ->] := arr0 j span_gt0; rewrite ltn_eqF.
- move=> j /andP[le_sj lt_jn].
  have [le_span_j|lt_j_span] := leqP span j.
    by apply: inside; rewrite le_span_j.
  have [|-> ->] := outside j; first by rewrite negb_and -ltnNge lt_j_span.
  have [-> ->] := arr0 j span_gt0.
  have -> : j = span.-1.
    by apply/eqP; rewrite eqn_leq le_sj andbT -ltnS prednK.
  by rewrite eqxx.
Qed.

End Run.



End Exact.

Section MoreExact.
Local Open Scope ring_scope.

Variable F : realFieldType.
Variable sqrtF : F -> F.
Variable p : nat.

Local Notation npfloat := (Recresid.npfloat F).
Local Notation NaN := (Recresid.NaN F).
Local Notation rstate := (Recresid.rstate F p).
Local Notation np_sqrt := (Recresid.np_sqrt sqrtF).
Local Notation recresid := (Recresid.recresid sqrtF).

Lemma rank_dotTX (s : seq 'rV[F]_p) : (\rank (dotTX s) <= size s)%N.
Proof.
rewrite dotTX_sum; elim: s => [|x s IH]; first by rewrite big_nil mxrank0.
rewrite big_cons /=; apply: leq_trans (mxrank_add _ _) _.
rewrite -[(size s).+1]add1n leq_add //; apply: leq_trans (mxrankM_maxr _ _) _.
exact: rank_leq_row.
Qed.


(** X14: when span exceeds the number of rows (y of the same length, the
    Gram matrix of X invertible), recresid raises IndexError at
    X[span - 1, :]. *)
Theorem span_beyond_rows_is_an_index_error
    (X : seq 'rV[F]_p) (y : seq F) (span : nat) :
  (size X < span)%N -> size y = size X -> dotTX X \in unitmx ->
  recresid X y span = Raise IndexError.
Proof.
case: span => [|k] //; rewrite ltnS => le_nk size_y Gu.
rewrite /Recresid.recresid /recresid_arrays /recresid_init.
rewrite !take_oversize ?size_y 1?ltnW // /linalg_inv Gu /=.
rewrite /dotTy size_y eqxx /= predZ /getitem.
by rewrite ltnNge le_nk.
Qed.

Section MoreRun.

Variables (X : seq 'rV[F]_p) (y : seq F).
Hypothesis size_y : size y = size X.

Local Notation resid_at := (Recresid.resid_at X y).
Local Notation var_at := (Recresid.var_at X).
Local Notation Minv := (Recresid.Minv X y).

Lemma unit_take span k :
  (span <= k <= size X)%N -> (0 < size X)%N ->
  dotTX (take span X) \in unitmx -> dotTX (take k X) \in unitmx.
Proof.
case/andP=> le_sk le_kn n_gt0 Gu.
have [|st0 [_ inv0 _]] := @init_Minv _ _ X y size_y span _ n_gt0 Gu.
  exact: leq_trans le_sk le_kn.
have [|st [_ []]] := @loop_Minv _ _ X y size_y (k - span) span st0 _ inv0.
  by rewrite subnKC.
by rewrite subnKC.
Qed.

Lemma var_at_ge1 span k i :
  (span <= k <= size X)%N -> (0 < size X)%N ->
  dotTX (take span X) \in unitmx -> 1 <= var_at k i.
Proof.
move=> rng n_gt0 Gu; rewrite /Recresid.var_at lerDl.
exact: leverage_ge0 (unit_take rng n_gt0 Gu).
Qed.

(** X11: over exact arithmetic with a square-root that is positive on
    positive numbers, for 0 < span < n and an invertible Gram matrix of the
    first span rows, recresid returns, at every position from span - 1 on, a
    finite number: the recorded variance term is at least 1, so its root is
    positive and the entry is the residual divided by this root. *)
Theorem standardised_residuals_are_finite (span : nat) :
  (forall x : F, 0 < x -> 0 < sqrtF x) ->
  (0 < span < size X)%N -> dotTX (take span X) \in unitmx ->
  exists out,
    recresid X y span = Ok out /\
    forall j, (span.-1 <= j < size X)%N ->
      let r := resid_at (maxn span j) j in
      let v := var_at (maxn span j) j in
      [/\ 1 <= v, 0 < sqrtF v & nth NaN out j = Fin (r / sqrtF v)].
Proof.
move=> sqrt_gt0 rng Gu; case/andP: (rng) => span_gt0 lt_sn.
have n_gt0 : (0 < size X)%N by apply: leq_trans lt_sn.
have [st [arrE sr sv lo hi]] := arrays_Minv size_y rng Gu.
rewrite /Recresid.recresid arrE /=; eexists; split; first by [].
move=> j rng_j /=; case/andP: (rng_j) => le_j lt_jn.
have v_ge1 : 1 <= var_at (maxn span j) j.
  apply: var_at_ge1 n_gt0 Gu; rewrite leq_maxl /= geq_max.
  by rewrite (ltnW lt_sn) (ltnW lt_jn).
have v_gt0 : 0 < var_at (maxn span j) j by apply: lt_le_trans v_ge1.
have s_gt0 := sqrt_gt0 _ v_gt0.
split=> //.
rewrite (nth_map (NaN, NaN)) ?size_zip ?sr ?sv ?minnn // nth_zip ?sr ?sv //=.
have [-> ->] := hi j rng_j.
by rewrite /= ltNge (ltW v_gt0) /= gt_eqF.
Qed.

Lemma quad_dotTX (s : seq 'rV[F]_p) (d : 'cV[F]_p) :
  \sum_(x <- s) (dot11 x d) ^+ 2 = (d^T *m dotTX s *m d) 0 0.
Proof.
rewrite dotTX_sum mulmx_sumr mulmx_suml summxE; apply: eq_bigr => x _.
have -> : d^T *m (x^T *m x) *m d = (x *m d)^T *m (x *m d).
  by rewrite trmx_mul !mulmxA.
by rewrite (dot11E x d) tr_scalar_mx -scalar_mxM mxE eqxx mulr1n expr2.
Qed.

Lemma ssr_shift (X' : seq 'rV[F]_p) (y' : seq F) (d : 'cV[F]_p) :
  size y' = size X' -> dotTX X' \in unitmx ->
  ssr X' y' (ols_batch X' y' + d)
  = ssr X' y' (ols_batch X' y') + (d^T *m dotTX X' *m d) 0 0.
Proof.
move=> sz Gu; set b0 := ols_batch X' y'.
have -> : ssr X' y' (b0 + d)
  = ssr X' y' b0 + \sum_(xy <- zip X' y') (dot11 xy.1 d) ^+ 2
    - \sum_(xy <- zip X' y') (xy.2 - dot11 xy.1 b0) * dot11 xy.1 d *+ 2.
  rewrite /ssr -big_split -sumrB /=; apply: eq_bigr => xy _.
  by rewrite dot11D opprD addrA sqrrB addrAC.
rewrite sumrMnl cross_term0 // mul0rn subr0; congr (_ + _).
rewrite -quad_dotTX -(big_map fst xpredT (fun x => (dot11 x d) ^+ 2)).
by have -> : [seq i.1 | i <- zip X' y'] = X' by apply: unzip1_zip; rewrite sz.
Qed.

Lemma ssr_rcons (s : seq 'rV[F]_p) (t : seq F) x v (b : 'cV[F]_p) :
  size s = size t ->
  ssr (rcons s x) (rcons t v) b = ssr s t b + (v - dot11 x b) ^+ 2.
Proof. by move=> st; rewrite /ssr zip_rcons // -cats1 big_cat big_seq1. Qed.

Lemma ssr_step k :
  (k < size X)%N -> dotTX (take k X) \in unitmx ->
  ssr (take k.+1 X) (take k.+1 y)
      (ols_batch (take k.+1 X) (take k.+1 y))
  = ssr (take k X) (take k y) (ols_batch (take k X) (take k y))
    + resid_at k k ^+ 2 / var_at k k.
Proof.
move=> lt_kn Gu.
have lt_ky : (k < size y)%N by rewrite size_y.
have sz_k : size (take k X) = size (take k y) by rewrite !size_take size_y.
set G := dotTX (take k X) in Gu *.
set M := invmx G; set x := nth 0 X k; set g := M *m x^T.
set b0 := ols_batch (take k X) (take k y).
set r := resid_at k k; set f := var_at k k.
have fE : f = 1 + dot11 x g by [].
have rE : r = nth 0 y k - dot11 x b0 by [].
have f_ge1 : 1 <= f by rewrite fE lerDl; apply: leverage_ge0.
have f_gt0 : 0 < f by apply: lt_le_trans f_ge1.
have fN0 : f != 0 by rewrite gt_eqF.
have Msym : M^T = M by rewrite invmx_sym // dotTX_sym.
have GE : dotTX (take k.+1 X) = G + x^T *m x.
  by rewrite (take_nth 0 lt_kn) dotTX_rcons.
have SM : dotTX (take k.+1 X) *m (M - f^-1 *: (g *m g^T)) = 1%:M.
  by rewrite GE; apply: (@sherman_morrison _ _ G M x (mulmxV Gu) Msym).
have [Gu' _] := mulmx1_unit SM.
have ME' : invmx (dotTX (take k.+1 X)) = M - f^-1 *: (g *m g^T).
  by rewrite -[RHS]mul1mx -(mulVmx Gu') -mulmxA SM mulmx1.
have bE : ols_batch (take k.+1 X) (take k.+1 y) = b0 + (r / f) *: g.
  rewrite /ols_batch ME' (take_nth 0 lt_kn) (take_nth 0 lt_ky).
  rewrite dotTy_rcons // -/x.
  exact: (@beta_update _ _ M x (dotTy_val (take k X) (take k y)) (nth 0 y k)
            Msym fN0).
rewrite bE (take_nth 0 lt_kn) (take_nth 0 lt_ky) ssr_rcons // -/x.
have sz_k' : size (take k y) = size (take k X) by rewrite sz_k.
rewrite (ssr_shift _ sz_k' Gu).
rewrite -/G -/b0 -addrA; congr (_ + _).
have xg : dot11 x g = f - 1 by rewrite fE addrC addKr.
have quad : (((r / f) *: g)^T *m G *m ((r / f) *: g)) 0 0
            = (r / f) ^+ 2 * (f - 1).
  have -> : ((r / f) *: g)^T = (r / f) *: g^T by rewrite linearZ.
  rewrite -!scalemxAl -scalemxAr scalerA mxE -expr2.
  congr (_ * _); rewrite -mulmxA.
  have -> : G *m g = x^T by rewrite /g mulmxA mulmxV // mul1mx.
  by rewrite -trmx_mul mxE -/(dot11 x g) xg.
rewrite quad dot11D -/b0.
have -> : dot11 x ((r / f) *: g) = r / f * (f - 1).
  by rewrite /dot11 -scalemxAr mxE -/(dot11 x g) xg.
rewrite opprD addrA -rE.
by field.
Qed.

(** X12: over exact arithmetic, the recorded one-step residuals squared
    and divided by the recorded variance terms sum, over the rows span..n-1,
    to the residual sum of squares of the least-squares fit on all rows
    minus that of the least-squares fit on the first span rows. *)
Theorem squared_recursive_residuals_sum_to_ssr (span : nat) :
  (0 < span < size X)%N -> dotTX (take span X) \in unitmx ->
  exists st,
    recresid_arrays X y span = Ok st /\
    \sum_(span <= j < size X)
       fin_val (nth NaN (recresid_ st) j) ^+ 2
       / fin_val (nth NaN (recvar st) j)
    = ssr X y (ols_batch X y)
      - ssr (take span X) (take span y)
          (ols_batch (take span X) (take span y)).
Proof.
move=> rng Gu; case/andP: (rng) => span_gt0 lt_sn.
have n_gt0 : (0 < size X)%N by apply: leq_trans lt_sn.
have [st [arrE sr sv lo hi]] := arrays_Minv size_y rng Gu.
exists st; split=> //.
pose S k := ssr (take k X) (take k y) (ols_batch (take k X) (take k y)).
have -> : ssr X y (ols_batch X y) = S (size X).
  by rewrite /S take_size -size_y take_size.
rewrite -/(S span) -(telescope_sumr S (ltnW lt_sn)).
rewrite !big_nat; apply: eq_bigr => j /andP[le_sj lt_jn].
have rng_j : (span.-1 <= j < size X)%N.
  by rewrite lt_jn andbT; apply: leq_trans (leq_pred _) le_sj.
have [-> ->] := hi j rng_j; rewrite (maxn_idPr le_sj) /=.
have Gu_j : dotTX (take j X) \in unitmx.
  by apply: unit_take n_gt0 Gu; rewrite le_sj ltnW.
by rewrite /S (ssr_step lt_jn Gu_j) [RHS]addrC addKr.
Qed.

Lemma take_take_le (T : Type) (s : seq T) k m :
  (k <= m)%N -> take k (take m s) = take k s.
Proof. by move=> le_km; rewrite -take_min (minn_idPl le_km). Qed.

(** X16: over exact arithmetic, recresid on the first m rows (span < m)
    returns m entries that agree with the first m entries of recresid on all
    rows: an entry does not depend on the rows after it. *)
Theorem earlier_entries_ignore_later_rows (span m : nat) :
  (0 < span < m)%N -> (m <= size X)%N -> dotTX (take span X) \in unitmx ->
  exists out out',
    [/\ recresid X y span = Ok out,
        recresid (take m X) (take m y) span = Ok out', size out' = m
      & forall j, (j < m)%N -> nth NaN out' j = nth NaN out j].
Proof.
case/andP=> span_gt0 lt_sm le_mn Gu.
have rng : (0 < span < size X)%N by rewrite span_gt0 (leq_trans lt_sm).
have sz' : size (take m y) = size (take m X) by rewrite !size_take size_y.
have szX' : size (take m X) = m by rewrite size_takel.
have rng' : (0 < span < size (take m X))%N by rewrite szX' span_gt0.
have Gu' : dotTX (take span (take m X)) \in unitmx.
  by rewrite take_take_le // ltnW.
have [st [arrE sr sv lo hi]] := arrays_Minv size_y rng Gu.
have [st' [arrE' sr' sv' lo' hi']] := arrays_Minv sz' rng' Gu'.
rewrite /Recresid.recresid arrE arrE' /=.
eexists; eexists; split; [by [] | by [] | |].
  by rewrite size_map size_zip sr' sv' minnn.
move=> j lt_jm; have lt_jn : (j < size X)%N by apply: leq_trans le_mn.
rewrite !(nth_map (NaN, NaN)) ?size_zip ?sr ?sv ?sr' ?sv' ?minnn ?szX' //.
rewrite !nth_zip ?sr ?sv ?sr' ?sv' //=.
have [lt_j|le_j] := ltnP j span.-1.
  by have [-> ->] := lo j lt_j; have [-> ->] := lo' j lt_j.
have [|-> ->] := hi j; first by rewrite le_j.
have [|-> ->] := hi' j; first by rewrite le_j szX'.
have le_k : (maxn span j <= m)%N by rewrite geq_max (ltnW lt_sm) (ltnW lt_jm).
rewrite /Recresid.resid_at /Recresid.var_at !take_take_le //.
by rewrite !nth_take.
Qed.

End MoreRun.

End MoreExact.

Local Open Scope ring_scope.

Lemma unit_X3 : dotTX (take 2 X3) \in unitmx.
Proof.
rewrite unitmxE det_mx11 mxE /= big_cons big_seq1 !mxE /=.
by rewrite mulr0 addr0 mulr1 unitr1.
Qed.




Lemma span_beyond_rows_is_an_index_error_witness :
  [/\ (size (take 1 X3) < 2)%N, size (take 1 y3) = size (take 1 X3)
    & dotTX (take 1 X3) \in unitmx] /\
  Recresid.recresid id (take 1 X3) (take 1 y3) 2 = Raise IndexError.
Proof.
have Gu : dotTX (take 1 X3) \in unitmx.
  by rewrite unitmxE det_mx11 mxE /= big_seq1 !mxE /= mulr1 unitr1.
split; first by split.
exact: (@span_beyond_rows_is_an_index_error _ id 1 (take 1 X3) (take 1 y3) 2
          (erefl _) (erefl _) Gu).
Defined.

Lemma earlier_entries_ignore_later_rows_witness :
  [/\ size y3 = size X3, (0 < 1 < 2)%N, (2 <= size X3)%N
    & dotTX (take 1 X3) \in unitmx] /\
  exists out out',
    [/\ Recresid.recresid id X3 y3 1 = Ok out,
        Recresid.recresid id (take 2 X3) (take 2 y3) 1 = Ok out',
        size out' = 2
      & forall j, (j < 2)%N -> nth (NaN _) out' j = nth (NaN _) out j].
Proof.
have Gu : dotTX (take 1 X3) \in unitmx.
  by rewrite unitmxE det_mx11 mxE /= big_seq1 !mxE /= mulr1 unitr1.
split; first by split.
exact: (@earlier_entries_ignore_later_rows _ id 1 X3 y3 (erefl _) 1 2
          (erefl _) (erefl _) Gu).
Defined.

Lemma id_gt0 (x : rat) : 0 < x -> 0 < id x.
Proof. by []. Qed.

Lemma standardised_residuals_are_finite_witness :
  [/\ forall x : rat, 0 < x -> 0 < id x, size y3 = size X3,
      (0 < 2 < size X3)%N & dotTX (take 2 X3) \in unitmx] /\
  exists out,
    Recresid.recresid id X3 y3 2 = Ok out /\
    forall j, (1 <= j < size X3)%N ->
      let r := resid_at X3 y3 (maxn 2 j) j in
      let v := var_at X3 (maxn 2 j) j in
      [/\ 1 <= v, 0 < id v & nth (NaN _) out j = Fin (r / id v)].
Proof.
split; first by split=> //; exact: unit_X3.
exact: (@standardised_residuals_are_finite _ id 1 X3 y3 (erefl _) 2 id_gt0
          (erefl _) unit_X3).
Defined.

Lemma squared_recursive_residuals_sum_to_ssr_witness :
  [/\ size y3 = size X3, (0 < 2 < size X3)%N
    & dotTX (take 2 X3) \in unitmx] /\
  exists st,
    recresid_arrays X3 y3 2 = Ok st /\
    \sum_(2 <= j < size X3)
       fin_val (nth (NaN _) (recresid_ st) j) ^+ 2
       / fin_val (nth (NaN _) (recvar st) j)
    = ssr X3 y3 (ols_batch X3 y3)
      - ssr (take 2 X3) (take 2 y3) (ols_batch (take 2 X3) (take 2 y3)).
Proof.
split; first by split=> //; exact: unit_X3.
exact: (@squared_recursive_residuals_sum_to_ssr _ 1 X3 y3 (erefl _) 2
          (erefl _) unit_X3).
Defined.

End RecresidFacts.

Module StabilityFacts.
Import Py Np Stability Provider StabilitySpec Examples.
Local Open Scope py_scope.

Section MaskFacts.
Variables (T V : Type).

Lemma size_scatter (f : T -> V -> T) m a vals :
  size (scatter f m a vals) = size a.
Proof.
elim: m a vals => [|b m IH] [|c a] vals //=.
case: b => /=; last by rewrite IH.
by case: vals => [|v vals] //=; rewrite IH.
Qed.

Lemma nth_scatter (f : T -> V -> T) a0 v0 m a vals j :
  size m = size a -> count id m = size vals ->
  nth a0 (scatter f m a vals) j
  = if nth false m j then f (nth a0 a j) (nth v0 vals (count id (take j m)))
    else nth a0 a j.
Proof.
elim: m a vals j => [|b m IH] [|c a] vals j //=; first by rewrite !nth_nil.
case: b => /= -[sz_m]; last first.
  by rewrite add0n => cnt; case: j => [|j] //=; rewrite IH // add0n.
case: vals => [|v vals] //= [cnt]; case: j => [|j] //=.
by rewrite IH // add1n.
Qed.

Lemma size_refine m m2 : size (refine m m2) = size m.
Proof. by elim: m m2 => [|[] m IH] [|v m2] //=; rewrite IH. Qed.

Lemma mask_refine m m2 (s : seq T) :
  size m2 = count id m -> mask m2 (mask m s) = mask (refine m m2) s.
Proof.
elim: m m2 s => [|b m IH] m2 [|x s] //=; try by rewrite !mask0.
case: b => /=; last by rewrite add0n => /IH.
by case: m2 => [|v m2] //= [/IH ->].
Qed.

Lemma count_refine m m2 :
  size m2 = count id m -> count id (refine m m2) = count id m2.
Proof.
elim: m m2 => [|b m IH] m2 /=; first by case: m2.
case: b => /=; last by rewrite !add0n => /IH.
by case: m2 => [|v m2] //= [/IH ->].
Qed.

End MaskFacts.

Lemma activeE st : active st = act_of (is_stable st) (enough st).
Proof. by []. Qed.

Lemma size_act_of s e : size s = size e -> size (act_of s e) = size s.
Proof. by move=> sz; rewrite size_map size_zip sz minnn. Qed.

Lemma nth_act_of s e j :
  size s = size e ->
  nth false (act_of s e) j = ~~ nth false s j && nth false e j.
Proof.
rewrite /act_of; elim: s e j => [|x s IH] [|y e] j //=; first by rewrite !nth_nil.
by case=> sz; case: j => [|j] //=; rewrite IH.
Qed.

Lemma act_of_stable s e sub :
  size s = size e -> size sub = count id (act_of s e) ->
  act_of (scatter (fun _ v => v) (act_of s e) s sub) e
  = refine (act_of s e) [seq ~~ b | b <- sub].
Proof.
rewrite /act_of; elim: s e sub => [|x s IH] [|y e] sub //= [sz].
case: x => /=; first by rewrite add0n => /(IH _ _ sz) ->.
case: y => /=; last by rewrite add0n => /(IH _ _ sz) ->.
by case: sub => [|b sub] //= [/(IH _ _ sz) ->]; rewrite andbT.
Qed.

Lemma act_of_enough s e esub :
  size s = size e -> size esub = count id (act_of s e) ->
  act_of s (scatter (fun _ v => v) (act_of s e) e esub)
  = refine (act_of s e) esub.
Proof.
rewrite /act_of; elim: s e esub => [|x s IH] [|y e] esub //= [sz].
case: x => /=; first by rewrite add0n => /(IH _ _ sz) ->.
case: y => /=; last by rewrite add0n => /(IH _ _ sz) ->.
by case: esub => [|b esub] //= [/(IH _ _ sz) ->].
Qed.

Lemma all_done_act s e :
  size s = size e ->
  all (fun se => se.1 || ~~ se.2) (zip s e) = ~~ has id (act_of s e).
Proof.
move=> _; rewrite /act_of has_map -all_predC; apply: eq_all => -[a b] /=.
by rewrite negb_and negbK.
Qed.

Lemma put_maskedP (T V : Type) (f : T -> V -> T) m a vals a' :
  put_masked f m a vals = Ok a' ->
  [/\ size m = size a, count id m = size vals & a' = scatter f m a vals].
Proof.
rewrite /put_masked; case: eqP => //= sz_m; case: eqP => //= cnt [<-].
by split.
Qed.

Lemma put_masked_ok (T V : Type) (f : T -> V -> T) m a vals :
  size m = size a -> count id m = size vals ->
  put_masked f m a vals = Ok (scatter f m a vals).
Proof. by rewrite /put_masked => -> ->; rewrite !eqxx. Qed.

Lemma setitem_colsP start m a vals a' :
  setitem_cols start m a vals = Ok a' ->
  [/\ size m = size a, all (fun v => size v == shape0 a - start) vals,
      count id m = size vals & a' = scatter (store_f32 start) m a vals].
Proof.
rewrite /setitem_cols; case: eqP => //= sz_m.
by case all_v: (all _ _) => //= /put_maskedP[_ cnt ->]; split.
Qed.

Lemma setitem_cols_ok start m a vals :
  size m = size a -> all (fun v => size v == shape0 a - start) vals ->
  count id m = size vals ->
  setitem_cols start m a vals = Ok (scatter (store_f32 start) m a vals).
Proof.
by move=> sz_m all_v cnt; rewrite /setitem_cols sz_m eqxx all_v /= put_masked_ok.
Qed.

Lemma fill_colsP v m a a' :
  fill_cols v m a = Ok a' -> size m = size a /\ a' = filled v m a.
Proof. by rewrite /fill_cols; case: eqP => //= sz_m [<-]. Qed.

Lemma select_colsP (T : Type) m (a a' : seq T) :
  select_cols m a = Ok a' -> size m = size a /\ a' = mask m a.
Proof. by rewrite /select_cols; case: eqP => //= sz_m [<-]. Qed.

Lemma size_filled v m a : size m = size a -> size (filled v m a) = size a.
Proof. by move=> sz; rewrite size_map size_zip sz minnn. Qed.

Lemma nth_filled v m a j :
  size m = size a ->
  nth [::] (filled v m a) j
  = if nth false m j then nseq (size (nth [::] a j)) v else nth [::] a j.
Proof.
rewrite /filled; elim: m a j => [|b m IH] [|c a] j //=.
  by rewrite !nth_nil.
by case=> sz; case: j => [|j] //=; rewrite IH.
Qed.

Section ControllerFacts.
Variable ols : matrix -> matrix -> option (matrix * matrix).

Lemma fit_and_checkP thr st st1 :
  fit_and_check ols thr st = Ok st1 ->
  exists bs rs slope sub,
    let act := active st in
    let res0 := filled nan act (residuals st) in
    let start := neg_start (shape0 res0) (shape0 (y_sub st)) in
    [/\ ols (X_sub st) (y_sub st) = Some (bs, rs),
        [/\ size act = size (beta st), size act = size (residuals st),
            size act = size (is_stable st) & size sub = size (y_sub st)],
        [/\ count id act = size bs, count id act = size rs
          & count id act = size sub],
        [/\ all (fun v => size v == shape0 (beta st) - 0) bs,
            all (fun v => size v == shape0 res0 - start) rs,
            getrow 1 bs = Ok slope & is_stable_ccdc slope rs thr = Ok sub]
      & st1 = FitState (scatter (fun _ v => v) act (is_stable st) sub)
                (enough st)
                [seq drop 2 c | c <- mask [seq ~~ b | b <- sub] (y_sub st)]
                [seq drop 2 c | c <- X_sub st]
                (scatter (store_f32 0) act (beta st) bs)
                (scatter (store_f32 start) act res0 rs)].
Proof.
rewrite /fit_and_check.
case olsE: (ols _ _) => [[bs rs]|] //=.
case betaE: (setitem_cols _ _ _ _) => [beta1|] //=.
case fillE: (fill_cols _ _ _) => [res0|] //=.
case resE: (setitem_cols _ _ _ _) => [res1|] //=.
case slopeE: (getrow _ _) => [slope|] //=.
case subE: (is_stable_ccdc _ _ _) => [sub|] //=.
case stabE: (put_masked _ _ _ _) => [is_stable1|] //=.
case selE: (select_cols _ _) => [y1|] //= [<-].
have [sz_b all_b cnt_b ->] := setitem_colsP betaE.
have [sz_r res0E] := fill_colsP fillE; rewrite res0E in resE.
have [_ all_r cnt_r ->] := setitem_colsP resE.
have [sz_s cnt_s ->] := put_maskedP stabE.
have [sz_y ->] := select_colsP selE; rewrite size_map in sz_y.
by exists bs, rs, slope, sub; split.
Qed.

Lemma recheck_enoughP p st st2 :
  recheck_enough p st = Ok st2 ->
  let esub := enough_obs p (y_sub st) in
  [/\ size (active st) = size (enough st), count id (active st) = size esub
    & st2 = FitState (is_stable st)
              (scatter (fun _ v => v) (active st) (enough st) esub)
              (mask esub (y_sub st)) (X_sub st) (beta st) (residuals st)].
Proof.
rewrite /recheck_enough.
case enE: (put_masked _ _ _ _) => [enough1|] //=.
case selE: (select_cols _ _) => [y2|] //= [<-].
have [sz_e cnt_e ->] := put_maskedP enE.
by have [_ ->] := select_colsP selE.
Qed.

End ControllerFacts.

Lemma shape0_all n (a : matrix) :
  0 < size a -> all (fun c => size c == n) a -> shape0 a = n.
Proof. by case: a => [|c a] //= _ /andP[/eqP]. Qed.

Lemma all_filled n v m (a : matrix) :
  all (fun c => size c == n) a -> all (fun c => size c == n) (filled v m a).
Proof.
rewrite /filled; elim: m a => [|b m IH] [|c a] //= /andP[sz_c /IH ->].
by rewrite andbT; case: b => //=; rewrite size_nseq.
Qed.

Lemma all_scatter_store n start m (a vals : matrix) :
  start <= n ->
  all (fun c => size c == n) a ->
  all (fun v => size v == n - start) vals ->
  all (fun c => size c == n) (scatter (store_f32 start) m a vals).
Proof.
move=> le_sn; elim: m a vals => [|b m IH] [|c a] vals //= /andP[sz_c all_a].
case: b => /=; last by rewrite sz_c => /(IH _ _ all_a).
case: vals => [|v vals] /=; first by rewrite sz_c all_a.
case/andP=> /eqP sz_v /(IH _ _ all_a) ->; rewrite andbT /store_f32.
by rewrite size_cat size_map size_takel ?(eqP sz_c) // sz_v subnKC.
Qed.

Lemma nth_refine m m2 j : nth false (refine m m2) j -> nth false m j.
Proof.
elim: m m2 j => [|b m IH] m2 [|j] //=.
- by case: b => //; case: m2.
- by case: b; [case: m2 => [|v m2] /=|]; apply: IH.
Qed.

Lemma nth_refine_rank m m2 j :
  size m2 = count id m -> nth false m j ->
  nth false (refine m m2) j = nth false m2 (count id (take j m)).
Proof.
elim: m m2 j => [|b m IH] m2 [|j] //=.
- by case: b => //; case: m2.
- case: b => /=; last by rewrite !add0n; apply: IH.
  by case: m2 => [|v m2] //= [sz]; apply: IH.
Qed.

Lemma size_mask_count (T : Type) m (s : seq T) :
  size m = size s -> size (mask m s) = count id m.
Proof. exact: size_mask. Qed.

Lemma nth_mask_rank (T : Type) (x0 : T) m (s : seq T) j :
  size m = size s -> nth false m j ->
  nth x0 (mask m s) (count id (take j m)) = nth x0 s j.
Proof.
elim: m s j => [|b m IH] [|x s] [|j] //=.
- by case: b.
- by case=> sz; case: b => /=; rewrite ?add0n ?add1n; apply: IH.
Qed.

Lemma rank_lt m j : nth false m j -> count id (take j m) < count id m.
Proof.
elim: m j => [|b m IH] [|j] //=; first by case: b.
by move/IH; rewrite ltn_add2l.
Qed.

Lemma has_act_size (T : Type) m (s : seq T) :
  size m = size s -> has id m -> 0 < size (mask m s).
Proof. by move=> sz; rewrite size_mask // has_count. Qed.

Lemma all_nth_size n (a : matrix) j :
  all (fun c => size c == n) a -> j < size a -> size (nth [::] a j) = n.
Proof. by move=> /all_nthP-/(_ [::] j) H /H /eqP. Qed.

Lemma count_valid_size c : count_valid c <= size c.
Proof. exact: count_size. Qed.

Lemma all_mask_self (T : Type) (P : pred T) (s : seq T) :
  all P (mask [seq P x | x <- s] s).
Proof. by elim: s => [|x s IH] //=; case: ifP => //= ->. Qed.

Section Partition.

Variable ols : matrix -> matrix -> option (matrix * matrix).
Variable thr : float.

Lemma Part_one k st j :
  Part k st -> stable_at st j + insufficient_at st j + iterating_at st j = 1.
Proof.
case=> sz_s sz_e se; rewrite /iterating_at activeE nth_act_of ?sz_s ?sz_e //.
move: (se j); rewrite /stable_at /insufficient_at.
by case: (nth false (is_stable st) j); case: (nth false (enough st) j) => //= /(_ isT).
Qed.

Lemma frame_fit st st1 :
  size (is_stable st) = size (enough st) ->
  fit_and_check ols thr st = Ok st1 ->
  [/\ size (is_stable st1) = size (is_stable st), enough st1 = enough st,
      size (beta st1) = size (beta st) /\
      size (residuals st1) = size (residuals st),
      forall j, iterating_at st1 j -> iterating_at st j
    & forall j, ~~ iterating_at st j ->
        [/\ stable_at st1 j = stable_at st j,
            nth [::] (beta st1) j = nth [::] (beta st) j
          & nth [::] (residuals st1) j = nth [::] (residuals st) j]].
Proof.
move=> sz_se /fit_and_checkP[bs [rs [slope [sub]]]] /=.
set act := active st; set res0 := filled nan act (residuals st).
case=> _ [sz_b sz_r sz_s sz_sub] [cnt_b cnt_r cnt_s] _ ->.
have sz_res0 : size res0 = size (residuals st) by rewrite size_filled.
split=> /=; rewrite ?size_scatter //.
- move=> j; rewrite /iterating_at activeE /= act_of_stable -?cnt_s //.
  exact: nth_refine.
- move=> j; rewrite /iterating_at /stable_at -/act /= => /negbTE act_j.
  rewrite !(nth_scatter _ [::] [::]) ?sz_res0 //.
  by rewrite (nth_scatter _ false false) // act_j /res0 nth_filled // act_j.
Qed.

Lemma frame_recheck p st st2 :
  size (is_stable st) = size (enough st) ->
  recheck_enough p st = Ok st2 ->
  [/\ is_stable st2 = is_stable st, size (enough st2) = size (enough st),
      beta st2 = beta st /\ residuals st2 = residuals st,
      forall j, iterating_at st2 j -> iterating_at st j
    & forall j, ~~ iterating_at st j ->
        insufficient_at st2 j = insufficient_at st j].
Proof.
move=> sz_se /recheck_enoughP /= [sz_e cnt_e ->].
split=> //=; rewrite ?size_scatter //.
- move=> j; move: cnt_e; rewrite /iterating_at !activeE /= => cnt_e.
  by rewrite act_of_enough //; apply: nth_refine.
- move=> j; rewrite /iterating_at /insufficient_at /= => /negbTE act_j.
  by rewrite (nth_scatter _ false false) // act_j.
Qed.

Lemma stable_not_iterating st j :
  size (is_stable st) = size (enough st) ->
  stable_at st j -> ~~ iterating_at st j.
Proof.
by move=> sz; rewrite /iterating_at /stable_at activeE nth_act_of // => ->.
Qed.

Lemma insufficient_not_iterating st j :
  size (is_stable st) = size (enough st) ->
  insufficient_at st j -> ~~ iterating_at st j.
Proof.
move=> sz; rewrite /iterating_at /insufficient_at activeE nth_act_of //.
by move/negbTE->; rewrite andbF.
Qed.

Lemma iterating_enough st j :
  size (is_stable st) = size (enough st) ->
  iterating_at st j -> ~~ stable_at st j /\ ~~ insufficient_at st j.
Proof.
move=> sz; rewrite /iterating_at /insufficient_at /stable_at activeE.
by rewrite nth_act_of // negbK => /andP[].
Qed.

Lemma Part_fit k st st1 :
  Part k st -> fit_and_check ols thr st = Ok st1 ->
  Part k st1
  /\ forall j, (stable_at st j -> stable_at st1 j)
            /\ (insufficient_at st j -> insufficient_at st1 j).
Proof.
case=> sz_s sz_e se fitE.
have sz_se : size (is_stable st) = size (enough st) by rewrite sz_s sz_e.
have [sz_s1 e1E _ sub1 fr1] := frame_fit sz_se fitE.
have mono j : stable_at st j -> stable_at st1 j.
  by move=> s_j; have [-> _ _] := fr1 j (stable_not_iterating sz_se s_j).
split; last first.
  by move=> j; split; [exact: mono | rewrite /insufficient_at e1E].
split; rewrite ?sz_s1 ?e1E // => j s1_j.
have [it_j|nit_j] := boolP (iterating_at st j).
  by have [_] := iterating_enough sz_se it_j; rewrite /insufficient_at e1E.
have [s_j _ _] := fr1 j nit_j.
by move: (se j); rewrite /insufficient_at e1E -s_j; apply.
Qed.

Lemma Part_recheck k p st st2 :
  Part k st -> recheck_enough p st = Ok st2 ->
  Part k st2
  /\ forall j, (stable_at st j -> stable_at st2 j)
            /\ (insufficient_at st j -> insufficient_at st2 j).
Proof.
case=> sz_s sz_e se fitE.
have sz_se : size (is_stable st) = size (enough st) by rewrite sz_s sz_e.
have [s2E sz_e2 _ sub2 fr2] := frame_recheck sz_se fitE.
split; last first.
  move=> j; split; first by rewrite /stable_at s2E.
  by move=> i_j; rewrite fr2 // insufficient_not_iterating.
split; rewrite ?s2E ?sz_e2 // => j s_j.
have s_j' : stable_at st j by move: s_j; rewrite /stable_at s2E.
have nit : ~~ iterating_at st j by apply: stable_not_iterating.
by rewrite (fr2 j nit); apply: se.
Qed.

Lemma fit_loop_eq p last dates st :
  fit_loop ols thr p last dates st
  = if all_done st then Ok st
    else st1 <- fit_and_check ols thr st ;;
         match dates with
         | _ :: _ :: ((first_date :: _) as dates') =>
             if under_a_year (last - first_date) then Ok st1
             else st2 <- recheck_enough p st1 ;;
                  fit_loop ols thr p last dates' st2
         | _ => Raise IndexError
         end.
Proof. by case: dates. Qed.

Lemma has_nth_true m j : nth false m j -> has id m.
Proof. by elim: m j => [|b m IH] [|j] //=; [move=> -> | move/IH->; rewrite orbT]. Qed.

Lemma all_done_iterating st j :
  size (is_stable st) = size (enough st) ->
  all_done st -> ~~ iterating_at st j.
Proof.
move=> sz; rewrite /all_done all_done_act // -activeE /iterating_at.
by apply: contra; apply: has_nth_true.
Qed.

Lemma fit_loop_frame p last dates st st' :
  size (is_stable st) = size (enough st) ->
  fit_loop ols thr p last dates st = Ok st' ->
  [/\ size (is_stable st') = size (is_stable st),
      size (beta st') = size (beta st),
      size (residuals st') = size (residuals st)
    & forall j, ~~ iterating_at st j ->
        [/\ stable_at st' j = stable_at st j,
            nth [::] (beta st') j = nth [::] (beta st) j
          & nth [::] (residuals st') j = nth [::] (residuals st) j]].
Proof.
have [m] := ubnP (size dates); elim: m dates st => // m IH dates st.
rewrite ltnS => le_m sz_se; rewrite fit_loop_eq.
case: ifP => [_ [<-] //|_].
case fitE: (fit_and_check _ _ _) => [st1|] //=.
have [sz_s1 e1E [sz_b1 sz_r1] sub1 fr1] := frame_fit sz_se fitE.
case: dates le_m => [|d0 [|d1 [|d2 ds]]] //= le_m.
case: ifP => _; first by case=> <-; split.
case recE: (recheck_enough _ _) => [st2|] //= loopE.
have sz_se1 : size (is_stable st1) = size (enough st1) by rewrite sz_s1 e1E.
have [s2E sz_e2 [b2E r2E] sub2 fr2] := frame_recheck sz_se1 recE.
have sz_se2 : size (is_stable st2) = size (enough st2) by rewrite s2E sz_e2.
have [|sz_s' sz_b' sz_r' fr'] := IH (d2 :: ds) st2 _ sz_se2 loopE.
  by rewrite /= ltnW // ltnW.
split; rewrite ?sz_s' ?sz_b' ?sz_r' ?s2E ?b2E ?r2E // => j nit_j.
have nit2 : ~~ iterating_at st2 j.
  by apply: contra nit_j => /sub2/sub1.
have [-> -> ->] := fr' j nit2; have [<- <- <-] := fr1 j nit_j.
by rewrite /stable_at s2E b2E r2E.
Qed.

End Partition.

Section Loop.

Variable ols : matrix -> matrix -> option (matrix * matrix).
Variables (X y : matrix) (thr : float) (n : nat).
Hypothesis rect_y : all (fun c => size c == n) y.

Local Notation Inv := (StabilitySpec.Inv X y n).
Local Notation Enough := (StabilitySpec.Enough X).
Local Notation fitted_at := (StabilitySpec.fitted_at ols X y n).

Lemma size_active w st : Inv w st -> size (active st) = size y.
Proof. by move=> I; rewrite activeE size_act_of (inv_s I) // (inv_e I). Qed.

Lemma window_rows w st :
  Inv w st -> Enough st -> has id (active st) ->
  [/\ 0 < size y, w < n, shape0 (y_sub st) = n - w
    & 3 * size X < 2 * (n - w)].
Proof.
move=> I En act; have sz_act := size_active I.
have y_gt0 : 0 < size (mask (active st) y) by apply: has_act_size.
have k_gt0 : 0 < size y.
  by rewrite -sz_act; apply: leq_trans (count_size id _); rewrite -has_count.
have rect_m : all (fun c => size c == n) (mask (active st) y).
  exact: all_mask.
move: En; rewrite /Enough (inv_y I).
case: (mask _ _) y_gt0 rect_m => [|c cs] //= _ /andP[/eqP sz_c _] /andP[en_c _].
have cnt_gt0 : 0 < count_valid (drop w c).
  by case: (count_valid _) en_c => //; rewrite muln0.
have : 0 < size (drop w c) by apply: leq_trans cnt_gt0 (count_size _ _).
rewrite size_drop sz_c subn_gt0 => lt_wn; split=> //.
apply: leq_trans en_c _; rewrite leq_mul2l /= -sz_c -size_drop.
exact: count_size.
Qed.

Lemma fit_and_check_spec w st st1 :
  Inv w st -> Enough st -> has id (active st) ->
  fit_and_check ols thr st = Ok st1 ->
  [/\ Inv w.+2 st1, w < n, enough st1 = enough st,
      forall j, nth false (active st1) j -> nth false (active st) j
    & forall j,
        if nth false (active st) j
        then fitted_at w j (nth [::] (residuals st1) j)
        else [/\ nth false (is_stable st1) j = nth false (is_stable st) j,
                 nth [::] (beta st1) j = nth [::] (beta st) j
               & nth [::] (residuals st1) j = nth [::] (residuals st) j]].
Proof.
move=> I En act_has /fit_and_checkP[bs [rs [slope [sub]]]].
set act := active st; set res0 := filled nan act (residuals st) => /=.
have sz_act : size act = size y := size_active I.
have [k_gt0 lt_wn r_eq _] := window_rows I En act_has.
have sz_res0 : size res0 = size y by rewrite size_filled ?(inv_r I).
have rows0 : all (fun c => size c == n) res0 by apply/all_filled/(inv_rows I).
have sh_res0 : shape0 res0 = n by apply: shape0_all; rewrite ?sz_res0.
have startE : neg_start (shape0 res0) (shape0 (y_sub st)) = w.
  by rewrite /neg_start sh_res0 r_eq subn_eq0 leqNgt lt_wn /= subKn // ltnW.
rewrite startE sh_res0.
case=> olsE [sz_b sz_r sz_s sz_sub] [cnt_b cnt_r cnt_s] [all_b all_r _ _] ->.
have sh_beta : shape0 (beta st) = size X.
  by apply: shape0_all; rewrite ?(inv_b I) // (inv_brows I).
have act1E : active (FitState (scatter (fun _ v => v) act (is_stable st) sub)
                (enough st)
                [seq drop 2 c | c <- mask [seq ~~ b | b <- sub] (y_sub st)]
                [seq drop 2 c | c <- X_sub st]
                (scatter (store_f32 0) act (beta st) bs)
                (scatter (store_f32 w) act res0 rs))
              = refine act [seq ~~ b | b <- sub].
  by rewrite activeE /= act_of_stable ?(inv_s I) ?(inv_e I) // -cnt_s.
split=> //.
- split=> /=; rewrite ?size_scatter ?(inv_s I) ?(inv_e I) ?(inv_b I) //.
  + move=> j; rewrite (nth_scatter _ false false) ?sz_s // -/act.
    case: ifP => [act_j _|_]; last exact: (inv_se I).
    by move: act_j; rewrite /act activeE nth_act_of ?(inv_s I) ?(inv_e I) // => /andP[].
  + rewrite act1E -mask_refine ?size_map -?cnt_s // (inv_y I) -/act.
    rewrite -map_mask -map_comp; apply: eq_map => c /=.
    by rewrite drop_drop.
  + by rewrite (inv_X I) -map_comp; apply: eq_map => c /=; rewrite drop_drop.
  + by apply: all_scatter_store => //; rewrite ltnW.
  + by apply: all_scatter_store => //; [rewrite (inv_brows I) | rewrite -sh_beta].
- by move=> j; rewrite act1E; apply: nth_refine.
- move=> j /=.
  rewrite !(nth_scatter _ [::] [::]) ?sz_res0 -?sz_act // ?(inv_b I) //.
  rewrite (nth_scatter _ false false) ?sz_s //.
  case act_j: (nth false act j); last first.
    by split=> //; rewrite /res0 nth_filled -?sz_r // act_j.
  have lt_rank : count id (take j act) < size rs by rewrite -cnt_r rank_lt.
  have lt_j : j < size y.
    by rewrite -sz_act; case: (ltnP j (size act)) act_j => // /(nth_default false) ->.
  exists act, bs, rs; split=> //.
  + by rewrite -(inv_X I) -(inv_y I).
  + by have /all_nthP-/(_ [::] _ lt_rank)/eqP := all_r.
  + rewrite /store_f32 /res0 nth_filled ?(inv_r I) // act_j.
    by rewrite (all_nth_size (inv_rows I)) ?(inv_r I) // take_nseq // ltnW.
Qed.

Lemma recheck_spec w st1 st2 :
  Inv w st1 -> recheck_enough (size X) st1 = Ok st2 ->
  [/\ Inv w st2, Enough st2, beta st2 = beta st1,
      residuals st2 = residuals st1
    & forall j, iterating_at st2 j -> iterating_at st1 j].
Proof.
move=> I recE.
have sz_se : size (is_stable st1) = size (enough st1).
  by rewrite (inv_s I) (inv_e I).
have P1 : Part (size y) st1.
  split; [exact: inv_s I | exact: inv_e I |].
  by move=> j /(inv_se I); rewrite /insufficient_at negbK.
have [[sz_s2 sz_e2 se2] _] := Part_recheck P1 recE.
have [s2E _ [b2E r2E] sub2 _] := frame_recheck sz_se recE.
have /= [sz_e cnt_e st2E] := recheck_enoughP recE.
have act2E : active st2 = refine (active st1) (enough_obs (size X) (y_sub st1)).
  move: cnt_e; rewrite st2E !activeE /= => cnt_e.
  by rewrite act_of_enough.
split=> //; last first.
  by rewrite /Enough st2E /=; apply: all_mask_self.
split; rewrite ?b2E ?r2E //; try by case: I.
- by move=> j /se2; rewrite /insufficient_at negbK.
- rewrite act2E -mask_refine -?cnt_e // st2E /= (inv_y I).
  by rewrite -map_mask.
- by rewrite st2E /= (inv_X I).
Qed.

Lemma fit_loop_spec last dates w st st' :
  Inv w st -> Enough st ->
  fit_loop ols thr (size X) last dates st = Ok st' ->
  forall j, iterating_at st j ->
    exists2 w', w <= w' & fitted_at w' j (nth [::] (residuals st') j).
Proof.
have [m] := ubnP (size dates); elim: m dates w st => // m IH dates w st.
rewrite ltnS => le_m I En; rewrite fit_loop_eq.
have sz_se : size (is_stable st) = size (enough st).
  by rewrite (inv_s I) (inv_e I).
case: ifP => [done _ j it_j|/negbT not_done].
  by have := @all_done_iterating st j sz_se done; rewrite it_j.
have act_has : has id (active st).
  by move: not_done; rewrite /all_done all_done_act // negbK.
case fitE: (fit_and_check _ _ _) => [st1|] //=.
have [I1 lt_wn e1E sub1 eff1] := fit_and_check_spec I En act_has fitE.
case: dates le_m => [|d0 [|d1 [|d2 ds]]] //= le_m.
case: ifP => _.
  case=> <- j it_j; exists w => //.
  by move: (eff1 j); rewrite -/(iterating_at st j) it_j.
case recE: (recheck_enough _ _) => [st2|] //= loopE0 j it_j.
have loopE : fit_loop ols thr (size X) last (d2 :: ds) st2 = Ok st' by [].
have [I2 En2 b2E r2E sub2] := recheck_spec I1 recE.
have [it2|nit2] := boolP (iterating_at st2 j).
  have [|w' le_w' fit'] := IH (d2 :: ds) w.+2 st2 _ I2 En2 loopE j it2.
    by rewrite /= ltnW // ltnW.
  by exists w' => //; apply: leq_trans le_w'; rewrite -addn2 leq_addr.
have sz_se2 : size (is_stable st2) = size (enough st2).
  by rewrite (inv_s I2) (inv_e I2).
have [_ _ _ /(_ j nit2)[_ _ ->]] := fit_loop_frame sz_se2 loopE.
exists w => //; rewrite r2E.
by move: (eff1 j); rewrite -/(iterating_at st j) it_j.
Qed.

Lemma act_of_false e : act_of (nseq (size e) false) e = e.
Proof. by rewrite /act_of; elim: e => [|b e IH] //=; rewrite IH. Qed.

Lemma active_init : active (fit_init X y) = enough_obs (size X) y.
Proof. by rewrite activeE /= act_of_false. Qed.

Lemma init_Inv : Inv 0 (fit_init X y).
Proof.
split; rewrite /= ?size_nseq ?size_map //.
- by move=> j; rewrite nth_nseq if_same.
- rewrite -/(fit_init X y) active_init.
  by rewrite -[LHS]map_id; apply: eq_map => c; rewrite drop0.
- by rewrite -[LHS]map_id; apply: eq_map => c; rewrite drop0.
- rewrite /full /shape1 all_nseq; case: (posnP (size y)) => [//|y_gt0].
  by rewrite size_nseq (shape0_all y_gt0 rect_y) eqxx.
- by rewrite /full all_nseq size_nseq eqxx orbT.
Qed.

Lemma init_Enough : Enough (fit_init X y).
Proof. by rewrite /Enough /=; apply: all_mask_self. Qed.

End Loop.

Section Reach.

Variable ols : matrix -> matrix -> option (matrix * matrix).
Variables (X y : matrix) (thr : float) (last : Z) (dates : seq Z).

Lemma init_Part : Part (size y) (fit_init X y).
Proof.
split; rewrite /= ?size_nseq ?size_map // => j.
by rewrite /stable_at /= nth_nseq if_same.
Qed.

Lemma reach_Part dates' st :
  reach ols thr (size X) last dates (fit_init X y) dates' st ->
  Part (size y) st.
Proof.
elim=> [|d0 d1 d2 ds st0 st1 st2 _ P0 _ fitE _ recE]; first exact: init_Part.
have [P1 _] := Part_fit P0 fitE.
by have [] := Part_recheck P1 recE.
Qed.

Lemma reach_sub dates' st j :
  reach ols thr (size X) last dates (fit_init X y) dates' st ->
  iterating_at st j -> iterating_at (fit_init X y) j.
Proof.
elim=> [//|d0 d1 d2 ds st0 st1 st2 R0 IH _ fitE _ recE it2].
have [sz_s sz_e _] := reach_Part R0.
have sz_se : size (is_stable st0) = size (enough st0) by rewrite sz_s sz_e.
have [sz_s1 e1E _ sub1 _] := frame_fit sz_se fitE.
have sz_se1 : size (is_stable st1) = size (enough st1) by rewrite sz_s1 e1E.
have [_ _ _ sub2 _] := frame_recheck sz_se1 recE.
by apply/IH/sub1/sub2.
Qed.

Lemma reach_fit_loop dates' st :
  reach ols thr (size X) last dates (fit_init X y) dates' st ->
  fit_loop ols thr (size X) last dates' st
  = fit_loop ols thr (size X) last dates (fit_init X y).
Proof.
elim=> [//|d0 d1 d2 ds st0 st1 st2 _ <- nd fitE ny recE].
by rewrite [RHS]fit_loop_eq nd fitE /= ny recE.
Qed.

End Reach.

Lemma broadcast2_same (A B C : Type) (f : A -> B -> C) a b :
  size a = size b -> broadcast2 f a b = Ok [seq f xy.1 xy.2 | xy <- zip a b].
Proof. by rewrite /broadcast2 => ->; rewrite eqxx. Qed.

Lemma is_stable_ccdc_ok slope res thr :
  size slope = size res -> all (fun c => 0 < size c) res ->
  is_stable_ccdc slope res thr
  = Ok [seq stable_col thr sc.1 sc.2 | sc <- zip slope res].
Proof.
move=> sz rows; rewrite /is_stable_ccdc /getrow /getrow_last rows /=.
rewrite /broadcast2; do 6?rewrite !(size_map, size_zip, sz, minnn, eqxx) /=.
congr Ok; elim: slope res {sz rows} => [|s slope IH] [|c res] //=.
by rewrite IH.
Qed.

Section Quiet.

Lemma quiet_bind (A B : Type) (m : result A) (k : A -> result B) :
  quiet m -> (forall a, quiet (k a)) -> quiet (bind m k).
Proof.
case: m => [a _ H|e H _] /=; first exact: H.
by move=> [E]; apply: H; rewrite E.
Qed.

Lemma quiet_Ok (A : Type) (a : A) : quiet (Ok a).
Proof. by []. Qed.

Lemma quiet_provider (A : Type) (o : option A) : quiet (provider o).
Proof. by case: o. Qed.

Lemma quiet_put_masked (T V : Type) (f : T -> V -> T) m a vals :
  quiet (put_masked f m a vals).
Proof. by rewrite /put_masked; do 2?case: ifP => _. Qed.

Lemma quiet_setitem_cols start m a vals : quiet (setitem_cols start m a vals).
Proof.
by rewrite /setitem_cols; do 2?[case: ifP => _ //]; apply: quiet_put_masked.
Qed.

Lemma quiet_fill_cols v m a : quiet (fill_cols v m a).
Proof. by rewrite /fill_cols; case: ifP. Qed.

Lemma quiet_getrow i a : quiet (getrow i a).
Proof. by rewrite /getrow; case: ifP. Qed.

Lemma quiet_getrow_last a : quiet (getrow_last a).
Proof. by rewrite /getrow_last; case: ifP. Qed.

Lemma quiet_select_cols (T : Type) m (a : seq T) : quiet (select_cols m a).
Proof. by rewrite /select_cols; case: ifP. Qed.

Lemma quiet_broadcast2 (A B C : Type) (f : A -> B -> C) a b :
  quiet (broadcast2 f a b).
Proof.
rewrite /broadcast2; case: ifP => // _.
by case: a => [|x [|x' a]]; case: b => [|y [|y' b]].
Qed.

Lemma quiet_is_stable_ccdc slope res thr : quiet (is_stable_ccdc slope res thr).
Proof.
rewrite /is_stable_ccdc.
do !(apply: quiet_bind => [|?];
     first by [exact: quiet_broadcast2 | exact: quiet_getrow
              | exact: quiet_getrow_last]).
exact: quiet_broadcast2.
Qed.

Variable ols : matrix -> matrix -> option (matrix * matrix).

Lemma quiet_fit_and_check thr st : quiet (fit_and_check ols thr st).
Proof.
rewrite /fit_and_check.
do !(apply: quiet_bind => [|?];
     first by [exact: quiet_provider | exact: quiet_setitem_cols
              | exact: quiet_fill_cols | exact: quiet_getrow
              | exact: quiet_is_stable_ccdc | exact: quiet_put_masked
              | exact: quiet_select_cols]).
exact: quiet_Ok.
Qed.

Lemma quiet_recheck_enough p st : quiet (recheck_enough p st).
Proof.
rewrite /recheck_enough.
apply: quiet_bind => [|?]; first exact: quiet_put_masked.
by apply: quiet_bind => [|?]; first exact: quiet_select_cols.
Qed.

Lemma quiet_fit_loop thr p last dates st :
  quiet (fit_loop ols thr p last dates st).
Proof.
have [m] := ubnP (size dates); elim: m dates st => // m IH dates st.
rewrite ltnS => le_m; rewrite fit_loop_eq; case: ifP => // _.
apply: quiet_bind => [|st1]; first exact: quiet_fit_and_check.
case: dates le_m => [|d0 [|d1 [|d2 ds]]] //= le_m.
case: ifP => // _; apply: quiet_bind => [|st2]; first exact: quiet_recheck_enough.
by apply: (IH (d2 :: ds)); rewrite /= ltnW // ltnW.
Qed.

End Quiet.

Lemma all_drop_size n w (a : matrix) :
  all (fun c => size c == n) a ->
  all (fun c => size c == n - w) [seq drop w c | c <- a].
Proof.
move=> rect; rewrite all_map; apply: sub_all rect => c /= /eqP sz.
by rewrite size_drop sz.
Qed.

Section Total.

Variable ols : matrix -> matrix -> option (matrix * matrix).
Variables (X y : matrix) (thr : float) (n : nat) (dates : seq Z) (last : Z).
Hypothesis p_ge2 : 1 < size X.
Hypothesis rect_X : all (fun c => size c == n) X.
Hypothesis rect_y : all (fun c => size c == n) y.
Hypothesis sz_dates : size dates = n.
Hypothesis ols_ok : provider_ok ols (size X).

Lemma fit_and_check_total w st :
  Inv X y n w st -> Enough X st -> has id (active st) ->
  exists st1, fit_and_check ols thr st = Ok st1.
Proof.
move=> I En act_has.
have sz_act : size (active st) = size y := size_active I.
have [k_gt0 lt_wn r_eq _] := window_rows rect_y I En act_has.
have rect_Xs : all (fun c => size c == n - w) (X_sub st).
  by rewrite (inv_X I); apply: all_drop_size.
have rect_ys : all (fun c => size c == n - w) (y_sub st).
  by rewrite (inv_y I); apply/all_drop_size/all_mask.
have sz_ys : size (y_sub st) = count id (active st).
  by rewrite (inv_y I) size_map size_mask.
have sz_Xs : size (X_sub st) = size X by rewrite (inv_X I) size_map.
have [bs [rs [olsE sz_bs all_bs sz_rs all_rs]]] := ols_ok sz_Xs rect_Xs rect_ys.
set act := active st; set res0 := filled nan act (residuals st).
have sz_res0 : size res0 = size y by rewrite size_filled ?(inv_r I).
have rows0 : all (fun c => size c == n) res0 by apply/all_filled/(inv_rows I).
have sh_res0 : shape0 res0 = n by apply: shape0_all; rewrite ?sz_res0.
have startE : neg_start (shape0 res0) (shape0 (y_sub st)) = w.
  by rewrite /neg_start sh_res0 r_eq subn_eq0 leqNgt lt_wn /= subKn // ltnW.
have sh_beta : shape0 (beta st) = size X.
  by apply: shape0_all; rewrite ?(inv_b I) // (inv_brows I).
rewrite /fit_and_check olsE /=.
rewrite setitem_cols_ok ?(inv_b I) ?sh_beta ?subn0 ?sz_bs //=.
rewrite /fill_cols sz_act (inv_r I) eqxx /= -/act -/res0 startE.
rewrite setitem_cols_ok ?sz_res0 ?sh_res0 ?sz_rs //=.
have all1 : all (fun c => 1 < size c) bs.
  by apply: (sub_all _ all_bs) => c /eqP->.
have all0 : all (fun c => 0 < size c) rs.
  by apply: (sub_all _ all_rs) => c /eqP->; rewrite subn_gt0.
have sz_slope : size [seq nth nan c 1 | c <- bs] = size rs.
  by rewrite size_map sz_bs sz_rs.
have sz_sub : size [seq stable_col thr sc.1 sc.2
                   | sc <- zip [seq nth nan c 1 | c <- bs] rs]
              = count id act.
  by rewrite size_map size_zip sz_slope minnn sz_rs.
rewrite /getrow all1 /= (is_stable_ccdc_ok _ sz_slope all0) /=.
rewrite put_masked_ok ?(inv_s I) ?sz_sub //=.
rewrite /select_cols size_map sz_sub sz_ys eqxx /=.
by eexists.
Qed.

Lemma recheck_total w st1 :
  Inv X y n w st1 -> exists st2, recheck_enough (size X) st1 = Ok st2.
Proof.
move=> I; have sz_act : size (active st1) = size y := size_active I.
have sz_ys : size (y_sub st1) = count id (active st1).
  by rewrite (inv_y I) size_map size_mask.
have sz_ae : size (active st1) = size (enough st1) by rewrite (inv_e I).
have cnt : count id (active st1) = size (enough_obs (size X) (y_sub st1)).
  by rewrite size_map.
rewrite /recheck_enough (put_masked_ok _ sz_ae cnt) /=.
by rewrite /select_cols /enough_obs size_map eqxx /=; eexists.
Qed.

Lemma fit_loop_total dates' w st :
  Inv X y n w st -> Enough X st -> dates' = drop w dates ->
  exists st', fit_loop ols thr (size X) last dates' st = Ok st'.
Proof.
have [m] := ubnP (size dates'); elim: m dates' w st => // m IH dates' w st.
rewrite ltnS => le_m I En datesE; rewrite fit_loop_eq.
have sz_se : size (is_stable st) = size (enough st).
  by rewrite (inv_s I) (inv_e I).
case: ifP => [_|/negbT not_done]; first by exists st.
have act_has : has id (active st).
  by move: not_done; rewrite /all_done all_done_act // negbK.
have [st1 fitE] := fit_and_check_total I En act_has.
have [I1 lt_wn _ _ _] := fit_and_check_spec rect_y I En act_has fitE.
have [_ _ _ big] := window_rows rect_y I En act_has.
have sz_d : 3 < size dates'.
  rewrite datesE size_drop sz_dates -(ltn_pmul2l (m := 2)) //.
  apply: leq_ltn_trans big; rewrite -[2 * 3]/(3 * 2) leq_mul2l /=.
  exact: p_ge2.
rewrite fitE /=.
case: dates' sz_d datesE le_m => [|d0 [|d1 [|d2 ds]]] //= _ datesE le_m.
case: ifP => _; first by exists st1.
have [st2 recE] := recheck_total I1.
have [I2 En2 _ _ _] := recheck_spec I1 recE.
rewrite recE /=; apply: (IH (d2 :: ds) w.+2) => //.
  by rewrite /= ltnW // ltnW.
by rewrite -[w.+2]/(2 + w) -drop_drop -datesE.
Qed.

End Total.

(** C1 (amended): for a slope vector and a residual matrix with as many
    columns, every column having at least one row, is_stable_ccdc returns one
    flag per column, and the flag of column j is the conjunction (logical AND)
    of three signed tests: slope_j / rmse < threshold, (residual in row 0) /
    rmse < threshold, and (residual in the last row) / rmse < threshold, where
    rmse is the square root of the mean of the squared residuals of the
    column over its non-missing entries.  No absolute value is taken, and the
    first and the last row are taken by position, missing or not. *)
Theorem is_stable_ccdc_three_tests slope res thr :
  size slope = size res -> all (fun c => 0 < size c) res ->
  exists flags,
    [/\ is_stable_ccdc slope res thr = Ok flags, size flags = size res
      & forall j, j < size res ->
          let c := nth [::] res j in
          let rmse := fsqrt (nanmean [seq fmul v v | v <- c]) in
          nth false flags j
          = [&& flt (fdiv (nth nan slope j) rmse) thr,
                flt (fdiv (nth nan c 0) rmse) thr
              & flt (fdiv (last nan c) rmse) thr]].
Proof.
move=> sz rows; exists [seq stable_col thr sc.1 sc.2 | sc <- zip slope res].
split; first exact: is_stable_ccdc_ok.
  by rewrite size_map size_zip sz minnn.
move=> j lt_j /=.
rewrite (nth_map (nan, [::])) ?size_zip ?sz ?minnn // nth_zip //=.
by rewrite /stable_col andbA.
Qed.

Lemma is_stable_ccdc_three_tests_witness :
  let slope := [:: f (-10)] in
  let res := [:: [:: f 1; f (-1)]] in
  size slope = size res /\ all (fun c => 0 < size c) res /\
  exists flags,
    [/\ is_stable_ccdc slope res (f 3) = Ok flags, size flags = size res
      & forall j, j < size res ->
          let c := nth [::] res j in
          let rmse := fsqrt (nanmean [seq fmul v v | v <- c]) in
          nth false flags j
          = [&& flt (fdiv (nth nan slope j) rmse) (f 3),
                flt (fdiv (nth nan c 0) rmse) (f 3)
              & flt (fdiv (last nan c) rmse) (f 3)]].
Proof.
split; first by []. split; first by [].
exact: (@is_stable_ccdc_three_tests [:: f (-10)] [:: [:: f 1; f (-1)]] (f 3)
          (erefl _) (erefl _)).
Defined.

Lemma is_stable_ccdc_not_absolute :
  [/\ is_stable_ccdc [:: f (-10)] [:: [:: f 1; f (-1)]] (f 3) = Ok [:: true],
      stable_as_claimed (f 3) (f (-10)) [:: f 1; f (-1)] = false,
      is_stable_ccdc [:: f 0] [:: [:: nan; f 1; f (-1)]] (f 3) = Ok [:: false]
    & stable_as_claimed (f 3) (f 0) [:: nan; f 1; f (-1)] = true].
Proof. by split; vm_compute. Qed.

Lemma getitem0 (T : Type) (x0 : T) (s : seq T) :
  0 < size s -> getitem s 0 = Ok (head x0 s).
Proof. by case: s. Qed.

Lemma getitem_m1 (T : Type) (x0 : T) (s : seq T) :
  0 < size s -> getitem s (-1) = Ok (last x0 s).
Proof.
case: s => [|x s] // _; rewrite /getitem /= subn1 /=.
by elim: s x => [|z s IH] x //=.
Qed.

Lemma under_a_yearE (d : Z) : under_a_year d = (d <=? 365)%coq_Z.
Proof.
rewrite /under_a_year /timedelta64_Y.
apply/idP/idP => [/Z.ltb_lt H|/Z.leb_le H].
  apply/Z.leb_le.
  have := Z.mul_div_le (d * 400) 146097 (erefl _).
  have := Z.mod_pos_bound (d * 400) 146097 (erefl _).
  have := Z.div_mod (d * 400) 146097.
  lia.
apply/Z.ltb_lt; apply: Z.div_lt_upper_bound; lia.
Qed.


Lemma ccdc_stable_fitP ols X y dates thr b r s :
  ccdc_stable_fit ols X y dates thr = Ok (b, r, s) ->
  exists last st,
    [/\ fit_loop ols thr (shape1 X) last dates (fit_init X y) = Ok st,
        b = beta st, r = residuals st & s = is_stable st].
Proof.
rewrite /ccdc_stable_fit.
case: (getitem dates 0) => [d0|] //=; case: (getitem dates _) => [dl|] //=.
case: ifP => // _; case loopE: (fit_loop _ _ _ _ _ _) => [st|] //= [<- <- <-].
by exists dl, st.
Qed.

(** C3: a column of y is in the fitting set at call entry exactly when its
    count of non-missing observations exceeds 1.5 times the number of design
    columns (3 p < 2 count); a column that fails the test is in the fitting
    set of no state the loop reaches, and in a returned triple its flag is
    False and its coefficient column and its residual column hold only the
    missing value. *)
Theorem insufficient_columns_stay_missing ols X y dates thr j :
  j < size y ->
  let p := shape1 X in
  let eligible := 3 * p < 2 * count_valid (nth [::] y j) in
  [/\ iterating_at (fit_init X y) j = eligible,
      ~~ eligible ->
        forall last dates' st,
          reach ols thr p last dates (fit_init X y) dates' st ->
          ~~ iterating_at st j
    & ~~ eligible ->
        forall b r s,
          ccdc_stable_fit ols X y dates thr = Ok (b, r, s) ->
          [/\ nth true s j = false, nth [::] b j = nseq p nan
            & nth [::] r j = nseq (shape0 y) nan]].
Proof.
move=> lt_j p eligible.
have itE : iterating_at (fit_init X y) j = eligible.
  rewrite /iterating_at active_init /enough_obs.
  by rewrite (nth_map [::]).
split=> // not_el.
  move=> last dates' st R; apply/negP => /(reach_sub R).
  by rewrite itE (negbTE not_el).
move=> b r s /ccdc_stable_fitP[last [st [loopE -> -> ->]]].
have sz0 : size (is_stable (fit_init X y)) = size (enough (fit_init X y)).
  by rewrite /= size_nseq.
have [sz_s _ _ /(_ j)] := fit_loop_frame sz0 loopE.
rewrite itE => /(_ not_el) [sE -> ->].
rewrite /= /full !nth_nseq lt_j; split=> //.
have lt_js : j < size (is_stable st) by rewrite sz_s /= size_nseq size_map.
rewrite (set_nth_default false) //.
by move: sE; rewrite /stable_at => ->; rewrite /= nth_nseq if_same.
Qed.


(** C6: in every state the loop of ccdc_stable_fit reaches, each column is in
    exactly one of the three classes stable, insufficient data and still
    iterating; a fit-and-check step and the re-count that follows keep the
    partition, keep stable columns stable and insufficient columns
    insufficient, a stable column is not in the set that is refitted, and the
    flags of stable columns are the same in the state the loop ends in. *)
Theorem partition_is_monotone ols X y dates thr last dates' st :
  reach ols thr (shape1 X) last dates (fit_init X y) dates' st ->
  [/\ forall j,
        stable_at st j + insufficient_at st j + iterating_at st j = 1,
      forall st1, fit_and_check ols thr st = Ok st1 ->
        forall j,
          [/\ stable_at st1 j + insufficient_at st1 j + iterating_at st1 j = 1,
              stable_at st j -> stable_at st1 j /\ ~~ iterating_at st j
            & insufficient_at st j -> insufficient_at st1 j],
      forall st1 st2,
        fit_and_check ols thr st = Ok st1 ->
        recheck_enough (shape1 X) st1 = Ok st2 ->
        forall j,
          [/\ stable_at st2 j + insufficient_at st2 j + iterating_at st2 j = 1,
              stable_at st1 j -> stable_at st2 j
            & insufficient_at st1 j -> insufficient_at st2 j]
    & forall st', fit_loop ols thr (shape1 X) last dates' st = Ok st' ->
        forall j, stable_at st j -> stable_at st' j].
Proof.
move=> R; have P := reach_Part R; have [sz_s sz_e _] := P.
have sz_se : size (is_stable st) = size (enough st) by rewrite sz_s sz_e.
split.
- by move=> j; apply: Part_one P.
- move=> st1 fitE j; have [P1 /(_ j)[mono_s mono_i]] := Part_fit P fitE.
  split=> //; first exact: Part_one P1.
  by move=> s_j; split; [exact: mono_s | exact: stable_not_iterating].
- move=> st1 st2 fitE recE j; have [P1 _] := Part_fit P fitE.
  have [P2 /(_ j)[mono_s mono_i]] := Part_recheck P1 recE.
  by split=> //; apply: Part_one P2.
- move=> st' loopE j s_j.
  have [_ _ _ /(_ j (stable_not_iterating sz_se s_j))[-> _ _]] :=
    fit_loop_frame sz_se loopE.
  by [].
Qed.

(** C8 (amended): for a design with at least two columns, n > 0 rows in X,
    y and dates alike, and a provider that succeeds on every window with
    arrays of the right shapes, ccdc_stable_fit raises the full-year error
    when the date span is under a year and otherwise returns a triple of
    coefficients, residuals and flags with one entry per column of y; no
    index error occurs. *)
Theorem stable_fit_returns_triple ols X y dates thr n :
  1 < shape1 X -> 0 < n ->
  all (fun c => size c == n) X -> all (fun c => size c == n) y ->
  size dates = n -> provider_ok ols (shape1 X) ->
  if under_a_year (last 0%coq_Z dates - head 0%coq_Z dates)
  then ccdc_stable_fit ols X y dates thr = Raise FullYearError
  else exists b r s,
         [/\ ccdc_stable_fit ols X y dates thr = Ok (b, r, s),
             size b = size y, size r = size y & size s = size y].
Proof.
move=> p_ge2 n_gt0 rect_X rect_y sz_d ols_ok.
have d_gt0 : 0 < size dates by rewrite sz_d.
rewrite /ccdc_stable_fit.
rewrite (getitem0 0%coq_Z d_gt0) (getitem_m1 0%coq_Z d_gt0) /=.
case yr: (under_a_year _) => //.
have [|st loopE] := @fit_loop_total ols X y thr n dates (last 0%coq_Z dates)
    p_ge2 rect_X rect_y sz_d ols_ok dates 0 (fit_init X y)
    (init_Inv X rect_y) (init_Enough X y).
  by rewrite drop0.
have sz0 : size (is_stable (fit_init X y)) = size (enough (fit_init X y)).
  by rewrite /= size_nseq.
have [sz_s sz_b sz_r _] := fit_loop_frame sz0 loopE.
rewrite loopE /=.
exists (Stability.beta st); exists (Stability.residuals st).
exists (Stability.is_stable st).
by split; rewrite ?sz_s ?sz_b ?sz_r //= ?size_nseq ?size_map.
Qed.

Lemma ols_small_ok : provider_ok ols_small 2.
Proof.
move=> Xs ys r; case: Xs => [|x0 [|x1 [|x2 Xs]]] //= _.
case/and3P=> /eqP s0 /eqP s1 _.
elim: ys => [|c ys IH] /=; first by exists [::], [::].
case/andP=> /eqP sc /IH[bs [rs [-> sb ab sr ar]]].
eexists; eexists; split; first by [].
- by rewrite /= sb.
- by rewrite /= ab.
- by rewrite /= sr.
- by rewrite /= ar size_map !size_zip sc s0 s1 !minnn eqxx.
Qed.

Lemma insufficient_columns_stay_missing_witness :
  2 < size Y8 /\
  let p := shape1 X8 in
  let eligible := 3 * p < 2 * count_valid (nth [::] Y8 2) in
  [/\ iterating_at (fit_init X8 Y8) 2 = eligible,
      ~~ eligible ->
        forall last dates' st,
          reach ols_small thr1 p last D8 (fit_init X8 Y8) dates' st ->
          ~~ iterating_at st 2
    & ~~ eligible ->
        forall b r s,
          ccdc_stable_fit ols_small X8 Y8 D8 thr1 = Ok (b, r, s) ->
          [/\ nth true s 2 = false, nth [::] b 2 = nseq p nan
            & nth [::] r 2 = nseq (shape0 Y8) nan]].
Proof.
split; first by [].
exact: (@insufficient_columns_stay_missing ols_small X8 Y8 D8 thr1 2 (erefl _)).
Defined.


Lemma fit8E : ccdc_stable_fit ols_small X8 Y8 D8 thr1
              = Ok (fit8.1.1, fit8.1.2, fit8.2).
Proof. by vm_compute. Qed.


Lemma reach8 :
  reach ols_small thr1 (shape1 X8) 700%coq_Z D8 (fit_init X8 Y8)
    (drop 2 D8) st8_2.
Proof.
apply: (@reach_iter ols_small thr1 (shape1 X8) 700%coq_Z D8 (fit_init X8 Y8)
          0%coq_Z 100%coq_Z 200%coq_Z (drop 3 D8) st8_0 st8_1 st8_2).
- exact: reach_start.
- by vm_compute.
- by vm_compute.
- by vm_compute.
- by vm_compute.
Qed.

Lemma partition_is_monotone_witness :
  reach ols_small thr1 (shape1 X8) 700%coq_Z D8 (fit_init X8 Y8)
    (drop 2 D8) st8_2 /\
  [/\ forall j,
        stable_at st8_2 j + insufficient_at st8_2 j + iterating_at st8_2 j = 1,
      forall st1, fit_and_check ols_small thr1 st8_2 = Ok st1 ->
        forall j,
          [/\ stable_at st1 j + insufficient_at st1 j + iterating_at st1 j = 1,
              stable_at st8_2 j -> stable_at st1 j /\ ~~ iterating_at st8_2 j
            & insufficient_at st8_2 j -> insufficient_at st1 j],
      forall st1 st2,
        fit_and_check ols_small thr1 st8_2 = Ok st1 ->
        recheck_enough (shape1 X8) st1 = Ok st2 ->
        forall j,
          [/\ stable_at st2 j + insufficient_at st2 j + iterating_at st2 j = 1,
              stable_at st1 j -> stable_at st2 j
            & insufficient_at st1 j -> insufficient_at st2 j]
    & forall st',
        fit_loop ols_small thr1 (shape1 X8) 700%coq_Z (drop 2 D8) st8_2
          = Ok st' ->
        forall j, stable_at st8_2 j -> stable_at st' j].
Proof.
split; first exact: reach8.
exact: (@partition_is_monotone ols_small X8 Y8 D8 thr1 700%coq_Z (drop 2 D8)
          st8_2 reach8).
Defined.

Lemma stable_fit_returns_triple_witness :
  [/\ 1 < shape1 X8, 0 < 8, all (fun c => size c == 8) X8,
      all (fun c => size c == 8) Y8
    & size D8 = 8 /\ provider_ok ols_small (shape1 X8)] /\
  (if under_a_year (last 0%coq_Z D8 - head 0%coq_Z D8)
   then ccdc_stable_fit ols_small X8 Y8 D8 thr1 = Raise FullYearError
   else exists b r s,
          [/\ ccdc_stable_fit ols_small X8 Y8 D8 thr1 = Ok (b, r, s),
              size b = size Y8, size r = size Y8 & size s = size Y8]).
Proof.
split; first by split=> //; split=> //; exact: ols_small_ok.
exact: (@stable_fit_returns_triple ols_small X8 Y8 D8 thr1 8 (erefl _)
          (erefl _) (erefl _) (erefl _) (erefl _) ols_small_ok).
Defined.

Lemma stable_fit_raises_IndexError :
  [/\ under_a_year (last 0%coq_Z D4 - head 0%coq_Z D4) = false,
      size D4 = shape0 X4 /\ shape0 Y4 = shape0 X4,
      exists fit, ols_small X4 Y4 = Some fit
    & ccdc_stable_fit ols_small X4 Y4 D4 (f 3) = Raise IndexError] /\
  [/\ under_a_year (800 - 0)%coq_Z = false,
      shape1 X8 = 2 /\ shape0 Y8 = shape0 X8,
      exists fit, ols_small X8 (mask (enough_obs 2 Y8) Y8) = Some fit
    & ccdc_stable_fit ols_small X8 Y8 [:: 0; 800]%coq_Z thr1
        = Raise IndexError].
Proof. by split; (split; [| |eexists|]); vm_compute. Qed.

Lemma getrowP i (a : matrix) row :
  getrow i a = Ok row ->
  all (fun c => i < size c) a /\ row = [seq nth nan c i | c <- a].
Proof. by rewrite /getrow; case: ifP => // rows [<-]. Qed.

Section FullLoop.

Variable ols : matrix -> matrix -> option (matrix * matrix).
Variables (X y : matrix) (thr : float) (n : nat).
Hypothesis rect_y : all (fun c => size c == n) y.

Local Notation Inv := (Inv X y n).
Local Notation Enough := (Enough X).
Local Notation fit_of := (fit_of ols X y thr n).

Lemma fit_and_check_full w st st1 :
  Inv w st -> Enough st -> has id (active st) ->
  fit_and_check ols thr st = Ok st1 ->
  forall j, nth false (active st) j ->
    fit_of w j (nth [::] (beta st1) j) (nth [::] (residuals st1) j)
      (nth false (is_stable st1) j).
Proof.
move=> I En act_has /fit_and_checkP[bs [rs [slope [sub]]]].
set act := active st; set res0 := filled nan act (residuals st) => /=.
have sz_act : size act = size y := size_active I.
have [k_gt0 lt_wn r_eq big_w] := window_rows rect_y I En act_has.
have sz_res0 : size res0 = size y by rewrite size_filled ?(inv_r I).
have rows0 : all (fun c => size c == n) res0 by apply/all_filled/(inv_rows I).
have sh_res0 : shape0 res0 = n by apply: shape0_all; rewrite ?sz_res0.
have startE : neg_start (shape0 res0) (shape0 (y_sub st)) = w.
  by rewrite /neg_start sh_res0 r_eq subn_eq0 leqNgt lt_wn /= subKn // ltnW.
rewrite startE sh_res0.
case=> olsE [sz_b sz_r sz_s sz_sub] [cnt_b cnt_r cnt_s] [all_b all_r slopeE subE] ->.
have sh_beta : shape0 (beta st) = size X.
  by apply: shape0_all; rewrite ?(inv_b I) // (inv_brows I).
move=> j act_j /=.
rewrite !(nth_scatter _ [::] [::]) ?sz_res0 -?sz_act // ?(inv_b I) //.
rewrite (nth_scatter _ false false) ?sz_s // act_j.
set k := count id (take j act).
have lt_kr : k < size rs by rewrite -cnt_r rank_lt.
have lt_kb : k < size bs by rewrite -cnt_b rank_lt.
have lt_j : j < size y.
  by rewrite -sz_act; case: (ltnP j (size act)) act_j => // /(nth_default false) ->.
have sz_rk : size (nth [::] rs k) = n - w.
  by have /all_nthP-/(_ [::] _ lt_kr)/eqP := all_r.
have sz_bk : size (nth [::] bs k) = size X.
  by have /all_nthP-/(_ [::] _ lt_kb)/eqP := all_b; rewrite sh_beta subn0.
have [rows1 slope_def] := getrowP slopeE.
have sz_slope : size slope = size rs by rewrite slope_def size_map -cnt_b.
have rows_gt0 : all (fun c => 0 < size c) rs.
  by apply: sub_all all_r => c /eqP->; rewrite subn_gt0.
have subE' : sub = [seq stable_col thr sc.1 sc.2 | sc <- zip slope rs].
  by move: subE; rewrite is_stable_ccdc_ok // => -[].
exists act, bs, rs; split=> //.
- by rewrite -(inv_X I) -(inv_y I).
- split; first by rewrite /store_f32 take0.
  rewrite /store_f32 /res0 nth_filled ?(inv_r I) // act_j.
  by rewrite (all_nth_size (inv_rows I)) ?(inv_r I) // take_nseq // ltnW.
- rewrite subE' (nth_map (nan, [::])) ?size_zip ?sz_slope ?minnn //.
  by rewrite nth_zip //= slope_def (nth_map [::]).
Qed.

Lemma fit_loop_Inv last dates w st st' :
  Inv w st -> Enough st ->
  fit_loop ols thr (size X) last dates st = Ok st' ->
  exists w', Inv w' st'.
Proof.
have [m] := ubnP (size dates); elim: m dates w st => // m IH dates w st.
rewrite ltnS => le_m I En; rewrite fit_loop_eq.
have sz_se : size (is_stable st) = size (enough st).
  by rewrite (inv_s I) (inv_e I).
case: ifP => [_ [<-]|/negbT not_done]; first by exists w.
have act_has : has id (active st).
  by move: not_done; rewrite /all_done all_done_act // negbK.
case fitE: (fit_and_check _ _ _) => [st1|] //=.
have [I1 lt_wn e1E sub1 eff1] := fit_and_check_spec rect_y I En act_has fitE.
case: dates le_m => [|d0 [|d1 [|d2 ds]]] //= le_m.
case: ifP => _; first by case=> <-; exists w.+2.
case recE: (recheck_enough _ _) => [st2|] //= loopE0.
have loopE : fit_loop ols thr (size X) last (d2 :: ds) st2 = Ok st' by [].
have [I2 En2 _ _ _] := recheck_spec I1 recE.
by apply: (IH (d2 :: ds) w.+2 st2 _ I2 En2 loopE); rewrite /= ltnW // ltnW.
Qed.

Lemma fit_loop_full last dates0 w st st' :
  Inv w st -> Enough st -> ~~ odd w ->
  under_a_year (last - nth 0%coq_Z dates0 w) = false ->
  fit_loop ols thr (size X) last (drop w dates0) st = Ok st' ->
  forall j, iterating_at st j ->
    exists w',
      [/\ w <= w', ~~ odd w',
          under_a_year (last - nth 0%coq_Z dates0 w') = false
        & fit_of w' j (nth [::] (beta st') j) (nth [::] (residuals st') j)
            (nth false (is_stable st') j)].
Proof.
have [m] := ubnP (size dates0 - w); elim: m w st => // m IH w st.
rewrite ltnS => le_m I En ev_w yr_w; rewrite fit_loop_eq.
have sz_se : size (is_stable st) = size (enough st).
  by rewrite (inv_s I) (inv_e I).
case: ifP => [done _ j it_j|/negbT not_done].
  by have := @all_done_iterating st j sz_se done; rewrite it_j.
have act_has : has id (active st).
  by move: not_done; rewrite /all_done all_done_act // negbK.
case fitE: (fit_and_check _ _ _) => [st1|] //=.
have [I1 lt_wn e1E sub1 eff1] := fit_and_check_spec rect_y I En act_has fitE.
have full1 := fit_and_check_full I En act_has fitE.
case dE: (drop w dates0) => [|d0 [|d1 [|d2 ds]]] //=.
have szE : size dates0 - w = (size ds).+3.
  by rewrite -size_drop dE.
have d2E : nth 0%coq_Z dates0 w.+2 = d2.
  by rewrite -addn2 -nth_drop dE.
have dropE : drop w.+2 dates0 = d2 :: ds.
  by rewrite -addn2 addnC -drop_drop dE.
case yr: (under_a_year _).
  case=> <- j it_j; exists w; split=> //.
  exact: full1.
case recE: (recheck_enough _ _) => [st2|] //= loopE0 j it_j.
have loopE : fit_loop ols thr (size X) last (drop w.+2 dates0) st2 = Ok st'.
  by rewrite dropE.
have [I2 En2 b2E r2E sub2] := recheck_spec I1 recE.
have sz_se1 : size (is_stable st1) = size (enough st1).
  by rewrite (inv_s I1) (inv_e I1).
have [s2E _ _ _ _] := frame_recheck sz_se1 recE.
have [it2|nit2] := boolP (iterating_at st2 j).
  have lt_m : size dates0 - w.+2 < m.
    by rewrite -addn2 subnDA szE /= subn2 /=; move: le_m; rewrite szE => /ltnW.
  have ev2 : ~~ odd w.+2 by rewrite /= negbK.
  have yr2 : under_a_year (last - nth 0%coq_Z dates0 w.+2) = false.
    by rewrite d2E.
  have [w' [le_w' ev_w' yr_w' fit']] :=
    IH w.+2 st2 lt_m I2 En2 ev2 yr2 loopE j it2.
  by exists w'; split=> //; apply: leq_trans le_w'; rewrite -addn2 leq_addr.
have sz_se2 : size (is_stable st2) = size (enough st2).
  by rewrite (inv_s I2) (inv_e I2).
have [_ _ _ /(_ j nit2)[sE bE rE]] := fit_loop_frame sz_se2 loopE.
exists w; split=> //.
by move: sE; rewrite /stable_at bE rE b2E r2E s2E => ->; apply: full1.
Qed.

End FullLoop.

Lemma ccdc_stable_fit_okP ols X y dates thr b r s :
  ccdc_stable_fit ols X y dates thr = Ok (b, r, s) ->
  [/\ 0 < size dates,
      under_a_year (last 0%coq_Z dates - head 0%coq_Z dates) = false
    & exists st,
        [/\ fit_loop ols thr (shape1 X) (last 0%coq_Z dates) dates
              (fit_init X y) = Ok st,
            b = beta st, r = residuals st & s = is_stable st]].
Proof.
move=> fitE; have d_gt0 : 0 < size dates by case: dates fitE.
move: fitE; rewrite /ccdc_stable_fit.
rewrite (getitem0 0%coq_Z d_gt0) (getitem_m1 0%coq_Z d_gt0) /=.
case yr: (under_a_year _) => //.
case loopE: (fit_loop _ _ _ _ _ _) => [st|] //= [<- <- <-].
by split=> //; exists st.
Qed.

Lemma full_year_error_iff ols X y dates thr :
  0 < size dates ->
  ccdc_stable_fit ols X y dates thr = Raise FullYearError
  <-> under_a_year (last 0%coq_Z dates - head 0%coq_Z dates).
Proof.
move=> d_gt0; rewrite /ccdc_stable_fit.
rewrite (getitem0 0%coq_Z d_gt0) (getitem_m1 0%coq_Z d_gt0) /=.
case yr: (under_a_year _); first by split.
split=> //.
case loopE: (fit_loop _ _ _ _ _ _) => [st|e] //= [eE].
by have := @quiet_fit_loop ols thr (shape1 X) (last 0%coq_Z dates) dates
             (fit_init X y); rewrite /quiet loopE eE.
Qed.



Lemma all_done_init X y :
  all (fun c => 2 * count_valid c <= 3 * shape1 X) y ->
  all_done (fit_init X y).
Proof.
rewrite /all_done /fit_init /enough_obs /= size_map => few.
elim: y few => [|c y IH] //= /andP[few_c /IH ->].
by rewrite andbT ltnNge few_c.
Qed.

(** X2: when the dates span a year but no column of y has more than 1.5 p
    non-missing observations (in particular when y has no column), the loop
    is not entered: whatever the provider, which is not called, the call
    returns coefficients and residuals filled with NaN and flags all
    False. *)
Theorem no_eligible_column_no_fit ols X y dates thr :
  0 < size dates ->
  under_a_year (last 0%coq_Z dates - head 0%coq_Z dates) = false ->
  all (fun c => 2 * count_valid c <= 3 * shape1 X) y ->
  ccdc_stable_fit ols X y dates thr
    = Ok (full (shape1 X) (shape1 y) nan, full (shape0 y) (shape1 y) nan,
          nseq (shape1 y) false).
Proof.
move=> d_gt0 yr few; rewrite /ccdc_stable_fit.
rewrite (getitem0 0%coq_Z d_gt0) (getitem_m1 0%coq_Z d_gt0) /=.
rewrite yr fit_loop_eq all_done_init //=.
by rewrite size_map.
Qed.

Lemma no_eligible_column_no_fit_witness :
  [/\ 0 < size D8,
      under_a_year (last 0%coq_Z D8 - head 0%coq_Z D8) = false
    & all (fun c => 2 * count_valid c <= 3 * shape1 X8) [:: col2; col2]] /\
  ccdc_stable_fit (fun _ _ => None) X8 [:: col2; col2] D8 thr1
    = Ok (full 2 2 nan, full 8 2 nan, nseq 2 false).
Proof.
split; first by [].
exact: (@no_eligible_column_no_fit (fun _ _ => None) X8 [:: col2; col2] D8
          thr1 (erefl _) (erefl _) (erefl _)).
Defined.

(** X3: whenever ccdc_stable_fit returns, for y with n rows, the three
    arrays have one entry per column of y, every coefficient column has p
    entries and every residual column has n entries. *)
Theorem returned_arrays_are_rectangular ols X y dates thr n b r s :
  all (fun c => size c == n) y ->
  ccdc_stable_fit ols X y dates thr = Ok (b, r, s) ->
  [/\ size b = size y, size r = size y, size s = size y,
      all (fun c => size c == shape1 X) b
    & all (fun c => size c == n) r].
Proof.
move=> rect /ccdc_stable_fit_okP[_ _ [st [loopE -> -> ->]]].
have [w I] := fit_loop_Inv rect (init_Inv X rect) (init_Enough X y) loopE.
by split; case: I.
Qed.

Lemma returned_arrays_are_rectangular_witness :
  [/\ all (fun c => size c == 8) Y8
    & ccdc_stable_fit ols_small X8 Y8 D8 thr1
        = Ok (fit8.1.1, fit8.1.2, fit8.2)] /\
  [/\ size fit8.1.1 = size Y8, size fit8.1.2 = size Y8, size fit8.2 = size Y8,
      all (fun c => size c == shape1 X8) fit8.1.1
    & all (fun c => size c == 8) fit8.1.2].
Proof.
split; first by split; [|exact: fit8E].
exact: (@returned_arrays_are_rectangular ols_small X8 Y8 D8 thr1 8 _ _ _
          (erefl _) fit8E).
Defined.



Lemma fdiv_zero_or_nan x r :
  is_zero x || isnan x -> is_zero r || isnan r -> fdiv x r = nan.
Proof. by case: x => [?|?||? ? ?] //; case: r => [?|?||? ? ?]. Qed.

Lemma fdiv_zero_l s d : is_zero (fdiv (S754_zero s) d) || isnan (fdiv (S754_zero s) d).
Proof. by case: d => [?|?||? ? ?]. Qed.

Lemma fsqrt_zero_or_nan x :
  is_zero x || isnan x -> is_zero (fsqrt x) || isnan (fsqrt x).
Proof. by case: x => [?|?||? ? ?]. Qed.

Lemma square_zero_or_nan v :
  is_zero v || isnan v ->
  (if isnan (fmul v v) then zero else fmul v v) = zero.
Proof. by case: v => [[]|?||? ? ?]. Qed.

Lemma nansum_squares_zero (c : seq float) :
  all (fun v => is_zero v || isnan v) c ->
  nansum [seq fmul v v | v <- c] = zero.
Proof.
rewrite /nansum -map_comp => zc.
have -> : [seq ((fun v => if isnan v then zero else v) \o
                (fun v => fmul v v)) v | v <- c] = nseq (size c) zero.
  elim: c zc => [|v c IH] //= /andP[zv /IH ->].
  by rewrite square_zero_or_nan.
by elim: (size c) => [|k IH].
Qed.

Lemma rmse_exact_fit (c : seq float) :
  all (fun v => is_zero v || isnan v) c ->
  let rmse := fsqrt (nanmean [seq fmul v v | v <- c]) in
  is_zero rmse || isnan rmse.
Proof.
move=> zc /=; apply: fsqrt_zero_or_nan.
by rewrite /nanmean nansum_squares_zero //; apply: fdiv_zero_l.
Qed.

(** X5: a column whose residuals are all zero or missing (an exact fit) is
    never flagged stable, whatever the slope and the threshold: its rmse is
    zero or NaN, so the quotient of the first row is NaN and the comparison
    fails. *)
Theorem exact_fit_is_not_stable slope res thr j :
  size slope = size res -> all (fun c => 0 < size c) res ->
  j < size res ->
  all (fun v => is_zero v || isnan v) (nth [::] res j) ->
  exists flags,
    [/\ is_stable_ccdc slope res thr = Ok flags, size flags = size res
      & nth true flags j = false].
Proof.
move=> sz rows lt_j zc; rewrite is_stable_ccdc_ok //.
eexists; split; first by [].
  by rewrite size_map size_zip sz minnn.
rewrite (nth_map (nan, [::])) ?size_zip ?sz ?minnn // nth_zip //=.
rewrite /stable_col.
have nonempty : 0 < size (nth [::] res j) by move/all_nthP: rows; apply.
have z0 : is_zero (nth nan (nth [::] res j) 0) || isnan (nth nan (nth [::] res j) 0).
  by move/all_nthP: zc; apply.
by rewrite (fdiv_zero_or_nan z0 (rmse_exact_fit zc)) /= andbF.
Qed.

Lemma exact_fit_is_not_stable_witness :
  [/\ size [:: f 0; f 1] = size [:: [:: zero; zero; nan]; [:: f 1; f 2; f 1]],
      all (fun c => 0 < size c) [:: [:: zero; zero; nan]; [:: f 1; f 2; f 1]],
      0 < size [:: [:: zero; zero; nan]; [:: f 1; f 2; f 1]]
    & all (fun v => is_zero v || isnan v)
        (nth [::] [:: [:: zero; zero; nan]; [:: f 1; f 2; f 1]] 0)] /\
  exists flags,
    [/\ is_stable_ccdc [:: f 0; f 1]
          [:: [:: zero; zero; nan]; [:: f 1; f 2; f 1]] (f 3) = Ok flags,
        size flags = size [:: [:: zero; zero; nan]; [:: f 1; f 2; f 1]]
      & nth true flags 0 = false].
Proof.
split; first by [].
exact: (@exact_fit_is_not_stable [:: f 0; f 1]
          [:: [:: zero; zero; nan]; [:: f 1; f 2; f 1]] (f 3) 0
          (erefl _) (erefl _) (erefl _) (erefl _)).
Defined.

(** X6: is_stable_ccdc on a residual matrix with columns but no rows raises
    IndexError (residuals[0, :]). *)
Theorem no_rows_is_an_index_error slope res thr :
  size slope = size res -> has (fun c => size c == 0) res ->
  is_stable_ccdc slope res thr = Raise IndexError.
Proof.
move=> sz empty; rewrite /is_stable_ccdc broadcast2_same ?size_map //=.
have -> : getrow 0 res = Raise IndexError; last by [].
rewrite /getrow.
have -> : all (fun c : seq float => 0 < size c) res
          = ~~ has (fun c => size c == 0) res.
  by rewrite -all_predC; apply: eq_all => c /=; rewrite lt0n.
by rewrite empty.
Qed.

Lemma no_rows_is_an_index_error_witness :
  let res : matrix := [:: [::]] in
  size [:: f 0] = size res
  /\ has (fun c => size c == 0) res
  /\ is_stable_ccdc [:: f 0] res (f 3) = Raise IndexError.
Proof.
split; first by []. split; first by [].
exact: (@no_rows_is_an_index_error [:: f 0] [:: [::]] (f 3) (erefl _) (erefl _)).
Defined.

(** X15: once a column is stable or has insufficient data in a state the
    loop reaches, the rest of the run leaves its flag, its coefficient
    column and its residual column as they are in that state. *)
Theorem retired_columns_are_frozen ols X y dates thr last dates' st st' j :
  reach ols thr (shape1 X) last dates (fit_init X y) dates' st ->
  fit_loop ols thr (shape1 X) last dates (fit_init X y) = Ok st' ->
  stable_at st j || insufficient_at st j ->
  [/\ nth false (is_stable st') j = nth false (is_stable st) j,
      nth [::] (beta st') j = nth [::] (beta st) j
    & nth [::] (residuals st') j = nth [::] (residuals st) j].
Proof.
move=> R; rewrite -(reach_fit_loop R) => loopE retired.
have [sz_s sz_e _] := reach_Part R.
have sz_se : size (is_stable st) = size (enough st) by rewrite sz_s sz_e.
have nit : ~~ iterating_at st j.
  case/orP: retired; first exact: stable_not_iterating.
  exact: insufficient_not_iterating.
by have [_ _ _ /(_ j nit)] := fit_loop_frame sz_se loopE.
Qed.

Lemma retired_columns_are_frozen_witness :
  [/\ reach ols_small thr1 (shape1 X8) 700%coq_Z D8 (fit_init X8 Y8)
        (drop 2 D8) st8_2,
      fit_loop ols_small thr1 (shape1 X8) 700%coq_Z D8 (fit_init X8 Y8)
        = Ok st8_end
    & stable_at st8_2 0 || insufficient_at st8_2 0] /\
  [/\ nth false (is_stable st8_end) 0 = nth false (is_stable st8_2) 0,
      nth [::] (beta st8_end) 0 = nth [::] (beta st8_2) 0
    & nth [::] (residuals st8_end) 0 = nth [::] (residuals st8_2) 0].
Proof.
have loopE : fit_loop ols_small thr1 (shape1 X8) 700%coq_Z D8 (fit_init X8 Y8)
             = Ok st8_end by vm_compute.
have ret : stable_at st8_2 0 || insufficient_at st8_2 0 by vm_compute.
split; first by split; [exact: reach8 | exact: loopE | exact: ret].
exact: (@retired_columns_are_frozen ols_small X8 Y8 D8 thr1 700%coq_Z
          (drop 2 D8) st8_2 st8_end 0 reach8 loopE ret).
Defined.

End StabilityFacts.

Module OutliersFacts.
Import Py Np Stability Heap Outliers Provider OutliersSpec Examples.
Local Open Scope py_scope.
Local Open Scope heap_scope.

Local Arguments fmul : simpl never.
Local Arguments fopp : simpl never.
Local Arguments fgt : simpl never.
Local Arguments flt : simpl never.
Local Arguments fabs : simpl never.
Local Arguments to_f32 : simpl never.

Lemma load_arrE h r a : holds h r (Arr a) -> load_arr r h = (Ok a, h).
Proof. by case=> lt_r eq_r; rewrite /load_arr /bindM /load lt_r eq_r. Qed.

Lemma load_cubeE h r c : holds h r (Cube c) -> load_cube r h = (Ok c, h).
Proof. by case=> lt_r eq_r; rewrite /load_cube /bindM /load lt_r eq_r. Qed.

Lemma load_datesE h r d : holds h r (Dates d) -> load_dates r h = (Ok d, h).
Proof. by case=> lt_r eq_r; rewrite /load_dates /bindM /load lt_r eq_r. Qed.

Lemma storeE h r o : r < size h -> store r o h = (Ok tt, set_nth o h r o).
Proof. by rewrite /store => ->. Qed.

Lemma store_size h r (o : obj) : r < size h -> size (set_nth o h r o) = size h.
Proof. by move=> lt_r; rewrite size_set_nth; apply/maxn_idPr. Qed.

Lemma store_frame h r o a :
  r < size h -> a != r ->
  nth (Flags [::]) (set_nth o h r o) a = nth (Flags [::]) h a.
Proof.
move=> lt_r ne_a; have [lt_a|le_a] := ltnP a (size h); last first.
  by rewrite !nth_default // store_size.
rewrite (set_nth_default o (Flags [::])) ?store_size //.
by rewrite nth_set_nth /= (negPf ne_a); apply: set_nth_default.
Qed.

Lemma store_holds h r o : r < size h -> holds (set_nth o h r o) r o.
Proof.
move=> lt_r; split; first by rewrite store_size.
by rewrite (set_nth_default o (Flags [::])) ?store_size // nth_set_nth /= eqxx.
Qed.

Lemma all2_nth (T U : Type) (r : T -> U -> bool) x0 y0 s t k :
  all2 r s t -> k < size s -> r (nth x0 s k) (nth y0 t k).
Proof.
elim: s t k => [|x s IH] [|y t] //= [|k] /andP[rxy rst] //.
by rewrite ltnS; apply: IH.
Qed.

Lemma same_shape_size (T U : Type) (a : seq (seq T)) (b : seq (seq U)) :
  same_shape a b -> size a = size b.
Proof. by case/andP=> /eqP. Qed.

Lemma same_shape_nth (T U : Type) (a : seq (seq T)) (b : seq (seq U)) k :
  same_shape a b -> size (nth [::] a k) = size (nth [::] b k).
Proof.
case/andP=> /eqP sz ab; have [lt_k|le_k] := ltnP k (size a).
  exact/eqP/(all2_nth [::] [::] ab).
by rewrite !nth_default // -sz.
Qed.

Lemma same_shapeP (T U : Type) (a : seq (seq T)) (b : seq (seq U)) :
  size a = size b ->
  (forall k, size (nth [::] a k) = size (nth [::] b k)) -> same_shape a b.
Proof.
rewrite /same_shape => sz cols; rewrite sz eqxx /=.
elim: a b sz cols => [|c a IH] [|d b] //= [sz] cols.
rewrite (cols 0) eqxx /=; apply: IH => // k; exact: (cols k.+1).
Qed.

Lemma same_shape_sym (T U : Type) (a : seq (seq T)) (b : seq (seq U)) :
  same_shape a b -> same_shape b a.
Proof.
move=> ab; apply: same_shapeP; first by rewrite (same_shape_size ab).
by move=> k; rewrite (same_shape_nth k ab).
Qed.

Lemma same_shape_trans (T U V : Type) (a : seq (seq T)) (b : seq (seq U))
    (c : seq (seq V)) :
  same_shape a b -> same_shape b c -> same_shape a c.
Proof.
move=> ab bc; apply: same_shapeP.
  by rewrite (same_shape_size ab) (same_shape_size bc).
by move=> k; rewrite (same_shape_nth k ab) (same_shape_nth k bc).
Qed.

Lemma same_shape_map (T U : Type) (g : T -> U) (a : seq (seq T)) :
  same_shape [seq [seq g v | v <- c] | c <- a] a.
Proof.
apply: same_shapeP; first by rewrite size_map.
move=> k; have [lt_k|le_k] := ltnP k (size a).
  by rewrite (nth_map [::]) // size_map.
by rewrite !nth_default // size_map.
Qed.

Section Zip2.

Variables (T U V : Type) (g : T -> U -> V) (x0 : T) (y0 : U) (z0 : V).
Hypothesis g0 : g x0 y0 = z0.

Local Notation zip2 := (OutliersSpec.zip2 g).

Lemma nth_zip2 a b k t :
  same_shape a b ->
  nth z0 (nth [::] (zip2 a b) k) t
    = g (nth x0 (nth [::] a k) t) (nth y0 (nth [::] b k) t).
Proof.
move=> ab; have sz := same_shape_size ab; have szk := same_shape_nth k ab.
have sz_z : size (zip2 a b) = size a by rewrite size_map size_zip -sz minnn.
have [lt_k|le_k] := ltnP k (size a); last first.
  have -> : nth [::] (zip2 a b) k = [::] by rewrite nth_default // sz_z.
  have -> : nth [::] a k = [::] by rewrite nth_default.
  have -> : nth [::] b k = [::] by rewrite nth_default // -sz.
  by rewrite !nth_nil.
have -> : nth [::] (zip2 a b) k
          = [seq g xy.1 xy.2 | xy <- zip (nth [::] a k) (nth [::] b k)].
  rewrite (nth_map ([::], [::])) ?size_zip -?sz ?minnn //.
  by rewrite nth_zip.
have sz_c : size (zip (nth [::] a k) (nth [::] b k)) = size (nth [::] a k).
  by rewrite size_zip -szk minnn.
have [lt_t|le_t] := ltnP t (size (nth [::] a k)); last first.
  have -> : nth x0 (nth [::] a k) t = x0 by rewrite nth_default.
  have -> : nth y0 (nth [::] b k) t = y0 by rewrite nth_default // -szk.
  by rewrite nth_default ?size_map ?sz_c.
by rewrite (nth_map (x0, y0)) ?sz_c // nth_zip.
Qed.

Lemma same_shape_zip2 a b : same_shape a b -> same_shape (zip2 a b) a.
Proof.
move=> ab; have sz := same_shape_size ab.
apply: same_shapeP; first by rewrite size_map size_zip -sz minnn.
move=> k; have szk := same_shape_nth k ab.
have [lt_k|le_k] := ltnP k (size a); last first.
  by rewrite !nth_default // size_map size_zip -sz minnn.
rewrite (nth_map ([::], [::])) ?size_zip -?sz ?minnn // nth_zip //=.
by rewrite size_map size_zip -szk minnn.
Qed.

End Zip2.

Lemma zip2_map (T U T' U' V : Type) (g : T' -> U' -> V) (F : T -> T')
    (G : U -> U') (a : seq (seq T)) (b : seq (seq U)) :
  zip2 g [seq [seq F v | v <- c] | c <- a] [seq [seq G v | v <- c] | c <- b]
    = zip2 (fun x y => g (F x) (G y)) a b.
Proof.
rewrite /zip2; elim: a b => [|c a IH] [|d b] //=; congr (_ :: _) => //.
by elim: c d {IH} => [|v c IH] [|w d] //=; rewrite IH.
Qed.

Lemma setitem_maskE m a :
  same_shape m a -> setitem_mask m a nan = Ok (put_nan m a).
Proof. by rewrite /setitem_mask => ->. Qed.

Lemma nth_put_nan m a k t :
  same_shape m a ->
  nth nan (nth [::] (put_nan m a) k) t
    = if nth false (nth [::] m k) t then nan else nth nan (nth [::] a k) t.
Proof. by move=> ma; rewrite /put_nan (nth_zip2 (x0 := false) (y0 := nan)). Qed.

Lemma same_shape_put_nan m a : same_shape m a -> same_shape (put_nan m a) a.
Proof.
move=> ma; apply: same_shape_trans (same_shape_zip2 _ ma) ma.
Qed.

Lemma logical_orE a b :
  same_shape a b -> logical_or a b = Ok (zip2 orb a b).
Proof. by rewrite /logical_or => ->. Qed.

Lemma nth_map2 (T U : Type) (g : T -> U) x0 y0 (a : seq (seq T)) k t :
  g x0 = y0 ->
  nth y0 (nth [::] [seq [seq g v | v <- c] | c <- a] k) t
    = g (nth x0 (nth [::] a k) t).
Proof.
move=> g0; have [lt_k|le_k] := ltnP k (size a); last first.
  have -> : nth [::] [seq [seq g v | v <- c] | c <- a] k = [::].
    by rewrite nth_default // size_map.
  by rewrite (@nth_default _ _ a) // !nth_nil.
rewrite (nth_map [::]) //.
have [lt_t|le_t] := ltnP t (size (nth [::] a k)); last first.
  have -> : nth x0 (nth [::] a k) t = x0 by rewrite nth_default.
  by rewrite nth_default ?size_map.
by rewrite (nth_map x0).
Qed.

Lemma fgt_nan x : fgt nan x = false.
Proof. by case: x => [?|?||? ? ?]. Qed.

Lemma flt_nan x : flt nan x = false.
Proof. by []. Qed.

Lemma nth_shewhart_mask L res k t :
  nth false (nth [::] (shewhart_mask L res) k) t
    = fgt (fabs (nth nan (nth [::] res k) t))
          (fmul L (nanstd (nth [::] res k))).
Proof.
rewrite /shewhart_mask.
have [lt_k|le_k] := ltnP k (size res); last first.
  have -> : forall F : seq float -> seq bool,
      nth [::] [seq F c | c <- res] k = [::].
    by move=> F; rewrite nth_default // size_map.
  rewrite (@nth_default _ _ res) // !nth_nil.
  by have -> : fabs nan = nan by []; rewrite fgt_nan.
rewrite (nth_map [::]) //=.
have [lt_t|le_t] := ltnP t (size (nth [::] res k)); last first.
  have -> : nth nan (nth [::] res k) t = nan by rewrite nth_default.
  have -> : fabs nan = nan by [].
  by rewrite fgt_nan nth_default ?size_map.
by rewrite (nth_map nan).
Qed.

Lemma same_shape_shewhart_mask L res : same_shape (shewhart_mask L res) res.
Proof.
apply: same_shapeP; first by rewrite size_map.
move=> k; have [lt_k|le_k] := ltnP k (size res).
  by rewrite (nth_map [::]) // size_map.
by rewrite !nth_default // size_map.
Qed.

Section Runs.

Variables ols rirls : matrix -> matrix -> option (matrix * matrix).
Variables (h : heap) (X y : addr) (Xv yv : matrix).
Hypothesis hX : holds h X (Arr Xv).
Hypothesis hy : holds h y (Arr yv).

Lemma shewhart_run L fit :
  ols Xv yv = Some fit -> same_shape fit.2 yv ->
  shewhart ols X y L h
    = (Ok y, set_nth (Arr (put_nan (shewhart_mask L fit.2) yv)) h y
               (Arr (put_nan (shewhart_mask L fit.2) yv))).
Proof.
move=> ols_fit shp.
have shp_m : same_shape (shewhart_mask L fit.2) yv.
  exact: same_shape_trans (same_shape_shewhart_mask L fit.2) shp.
rewrite /shewhart /bindM (load_arrE hX) (load_arrE hy) /lift ols_fit /=.
by rewrite (setitem_maskE shp_m) storeE //; case: hy.
Qed.

Lemma shewhart_frame L r h' :
  shewhart ols X y L h = (r, h') ->
  [/\ size h' = size h,
      forall a, a != y -> nth (Flags [::]) h' a = nth (Flags [::]) h a
    & forall a, r = Ok a -> a = y].
Proof.
rewrite /shewhart /bindM (load_arrE hX) (load_arrE hy) /lift.
case: (provider _) => [fit|e] /=; last by case=> <- <-; split.
case: (setitem_mask _ _ _) => [y1|e] /=; last by case=> <- <-; split.
have lt_y : y < size h by case: hy.
rewrite storeE // /ret => -[<- <-]; split=> [|a ne_a|a [->]] //.
  exact: store_size.
exact: store_frame.
Qed.

Variables (green swir : addr) (g s : ndarray3) (scaling_factor : float).
Hypothesis hg : holds h green (Cube g).
Hypothesis hs : holds h swir (Cube s).

Lemma ccdc_rirls_run green_flat swir_flat gfit sfit :
  reshape2 (dim0 g) (dim1 g * dim2 g) [seq to_f32 v | v <- values g]
    = Ok green_flat ->
  reshape2 (dim0 g) (dim1 g * dim2 g) [seq to_f32 v | v <- values s]
    = Ok swir_flat ->
  rirls Xv green_flat = Some gfit -> rirls Xv swir_flat = Some sfit ->
  same_shape gfit.2 yv -> same_shape sfit.2 yv ->
  0 < count_valid (values g) ->
  ccdc_rirls rirls X y green swir scaling_factor h
    = (Ok y,
       set_nth
         (Arr (put_nan (zip2 (is_outlier_at scaling_factor) gfit.2 sfit.2) yv))
         h y
         (Arr (put_nan (zip2 (is_outlier_at scaling_factor) gfit.2 sfit.2)
                 yv))).
Proof.
move=> eq_g eq_s fit_g fit_s shp_g shp_s cnt.
have shp_gs : same_shape gfit.2 sfit.2.
  exact: same_shape_trans shp_g (same_shape_sym shp_s).
pose a := [seq [seq fgt v (fmul c004 scaling_factor) | v <- c] | c <- gfit.2].
pose b := [seq [seq flt v (fmul (fopp c004) scaling_factor) | v <- c]
          | c <- sfit.2].
have shp_a : same_shape a gfit.2 by exact: same_shape_map.
have shp_b : same_shape b sfit.2 by exact: same_shape_map.
have shp_ab : same_shape a b.
  apply: same_shape_trans shp_a _; apply: same_shape_trans shp_gs _.
  exact: same_shape_sym.
have shp_o : same_shape (zip2 orb a b) yv.
  apply: same_shape_trans (same_shape_zip2 orb shp_ab) _.
  exact: same_shape_trans shp_a shp_g.
have eq_o : zip2 orb a b = zip2 (is_outlier_at scaling_factor) gfit.2 sfit.2.
  exact: zip2_map.
rewrite /ccdc_rirls /bindM (load_arrE hX) (load_arrE hy) (load_cubeE hg)
        (load_cubeE hs) /lift /= eq_g eq_s fit_g fit_s /=.
have lt_y : y < size h by case: hy.
have -> : logical_or a b = Ok (zip2 orb a b) by exact: logical_orE.
by rewrite (setitem_maskE shp_o) (storeE _ lt_y) -eq_o eqn0Ngt cnt.
Qed.

Lemma ccdc_rirls_frame r h' :
  ccdc_rirls rirls X y green swir scaling_factor h = (r, h') ->
  [/\ size h' = size h,
      forall a, a != y -> nth (Flags [::]) h' a = nth (Flags [::]) h a
    & forall a, r = Ok a -> a = y].
Proof.
rewrite /ccdc_rirls /bindM (load_arrE hX) (load_arrE hy) (load_cubeE hg)
        (load_cubeE hs) /lift /=.
case: (reshape2 _ _ _) => [gf|e] /=; last by case=> <- <-; split.
case: (reshape2 _ _ _) => [sf|e] /=; last by case=> <- <-; split.
case: (provider _) => [gfit|e] /=; last by case=> <- <-; split.
case: (provider _) => [sfit|e] /=; last by case=> <- <-; split.
case: (logical_or _ _) => [o|e] /=; last by case=> <- <-; split.
case: (setitem_mask _ _ _) => [y1|e] /=; last by case=> <- <-; split.
have lt_y : y < size h by case: hy.
rewrite storeE //.
have fr : forall a, a != y ->
    nth (Flags [::]) (set_nth (Arr y1) h y (Arr y1)) a = nth (Flags [::]) h a.
  by move=> a; exact: store_frame.
by case: ifP => _ [<- <-]; split; rewrite ?store_size // => a [].
Qed.

Variables (dates : addr) (dv : seq Z) (threshold : float).
Hypothesis hd : holds h dates (Dates dv).

Lemma ccdc_stable_fit_call_run :
  ccdc_stable_fit_call ols X y dates threshold h
    = match ccdc_stable_fit ols Xv yv dv threshold with
      | Ok out =>
          (Ok (size h, (size h).+1, (size h).+2),
           h ++ [:: Arr out.1.1; Arr out.1.2; Flags out.2])
      | Raise e => (Raise e, h)
      end.
Proof.
rewrite /ccdc_stable_fit_call /bindM (load_arrE hX) (load_arrE hy)
        (load_datesE hd) /lift.
case: (ccdc_stable_fit _ _ _ _ _) => [[[b r] f]|e] //=.
by rewrite /alloc /ret !size_rcons -!cats1 -!catA.
Qed.

End Runs.

Lemma c004_nearest : fdiv (f 4) (f 100) = c004.
Proof. by vm_compute. Qed.

Lemma is_outlier_at_nan sf : is_outlier_at sf nan nan = false.
Proof. by rewrite /is_outlier_at fgt_nan flt_nan. Qed.

(** C10 (amended): when both robust fits succeed with residuals of the shape
    of y and green has a non-missing value, ccdc_rirls returns y, overwritten
    in place so that an entry is NaN exactly where the green residual is
    above 0.04 * scaling_factor or the SWIR residual is below
    -0.04 * scaling_factor (two one-sided tests combined by OR), and keeps its
    value elsewhere. *)
Theorem ccdc_rirls_flags_one_sided
    (rirls : matrix -> matrix -> option (matrix * matrix))
    (h : heap) (X y green swir : addr) (scaling_factor : float)
    (Xv yv : matrix) (g s : ndarray3) (green_flat swir_flat : matrix)
    (gfit sfit : matrix * matrix) :
  holds h X (Arr Xv) -> holds h y (Arr yv) ->
  holds h green (Cube g) -> holds h swir (Cube s) ->
  reshape2 (dim0 g) (dim1 g * dim2 g) [seq to_f32 v | v <- values g]
    = Ok green_flat ->
  reshape2 (dim0 g) (dim1 g * dim2 g) [seq to_f32 v | v <- values s]
    = Ok swir_flat ->
  rirls Xv green_flat = Some gfit -> rirls Xv swir_flat = Some sfit ->
  same_shape gfit.2 yv -> same_shape sfit.2 yv ->
  0 < count_valid (values g) ->
  exists y1 h',
    [/\ ccdc_rirls rirls X y green swir scaling_factor h = (Ok y, h'),
        holds h' y (Arr y1),
        same_shape y1 yv
      & forall k t,
          nth nan (nth [::] y1 k) t
            = if fgt (nth nan (nth [::] gfit.2 k) t)
                     (fmul c004 scaling_factor)
                 || flt (nth nan (nth [::] sfit.2 k) t)
                        (fmul (fopp c004) scaling_factor)
              then nan else nth nan (nth [::] yv k) t].
Proof.
move=> hX hy hg hs eq_g eq_s fit_g fit_s shp_g shp_s cnt.
have shp_gs : same_shape gfit.2 sfit.2.
  exact: same_shape_trans shp_g (same_shape_sym shp_s).
have shp_o : same_shape (zip2 (is_outlier_at scaling_factor) gfit.2 sfit.2) yv.
  exact: same_shape_trans (same_shape_zip2 _ shp_gs) shp_g.
have lt_y : y < size h by case: hy.
set y1 := put_nan (zip2 (is_outlier_at scaling_factor) gfit.2 sfit.2) yv.
exists y1, (set_nth (Arr y1) h y (Arr y1)); split.
- exact: (ccdc_rirls_run hX hy scaling_factor hg hs eq_g eq_s fit_g fit_s shp_g shp_s cnt).
- exact: store_holds.
- exact: same_shape_put_nan.
- move=> k t; rewrite /y1 nth_put_nan //.
  by rewrite (@nth_zip2 _ _ _ (is_outlier_at scaling_factor) nan nan false)
             ?is_outlier_at_nan.
Qed.

Lemma ccdc_rirls_flags_one_sided_witness :
  exists y1 h',
    [/\ ccdc_rirls ols_small 0 1 2 3 (f 1) h4 = (Ok 1, h'),
        holds h' 1 (Arr y1),
        same_shape y1 Y4
      & forall k t,
          nth nan (nth [::] y1 k) t
            = if fgt (nth nan (nth [::] G4_fit.2 k) t) (fmul c004 (f 1))
                 || flt (nth nan (nth [::] S4_fit.2 k) t)
                        (fmul (fopp c004) (f 1))
              then nan else nth nan (nth [::] Y4 k) t].
Proof.
apply: (@ccdc_rirls_flags_one_sided ols_small h4 0 1 2 3 (f 1) X4 Y4 G4 S4
          [:: values G4] [:: values S4] G4_fit S4_fit);
  by [split; vm_compute | vm_compute].
Defined.

Lemma ccdc_rirls_not_two_sided :
  [/\ reshape2 4 1 [seq to_f32 v | v <- values G4] = Ok [:: values G4],
      reshape2 4 1 [seq to_f32 v | v <- values S4] = Ok [:: values S4],
      ols_small X4 [:: values G4] = Some G4_fit
    & ols_small X4 [:: values S4] = Some S4_fit] /\
  [/\ nth nan (nth [::] G4_fit.2 0) 3 = fopp (fmul (f 3) quarter),
      nth nan (nth [::] S4_fit.2 0) 3 = fmul (f 3) quarter,
      outlier_as_claimed (f 1) (fopp (fmul (f 3) quarter))
        (fmul (f 3) quarter) = true,
      is_outlier_at (f 1) (fopp (fmul (f 3) quarter)) (fmul (f 3) quarter)
        = false
    & ccdc_rirls ols_small 0 1 2 3 (f 1) h4
        = (Ok 1, [:: Arr X4; Arr [:: [:: nan; nan; nan; f 4]];
                     Cube G4; Cube S4; Dates D4])].
Proof. by split; split; vm_compute. Qed.




Lemma setitem_maskP m a y1 :
  setitem_mask m a nan = Ok y1 -> same_shape m a /\ y1 = put_nan m a.
Proof. by rewrite /setitem_mask; case: ifP => // shp [<-]. Qed.

Lemma count_valid_put_nan_col (mc : seq bool) (c : seq float) :
  count_valid [seq (if bx.1 then nan else bx.2) | bx <- zip mc c]
    <= count_valid c.
Proof.
rewrite /count_valid; elim: mc c => [|b mc IH] [|x c] //=.
by case: b => /=; rewrite ?add0n; [apply: leq_trans (IH c) (leq_addl _ _)
                                  | rewrite leq_add2l].
Qed.

Lemma count_valid_put_nan m a k :
  same_shape m a ->
  count_valid (nth [::] (put_nan m a) k) <= count_valid (nth [::] a k).
Proof.
move=> ma; have sz := same_shape_size ma.
have [lt_k|le_k] := ltnP k (size a); last first.
  by rewrite !(@nth_default _ _ _ k) // size_map size_zip sz minnn.
rewrite /put_nan /zip2 (nth_map ([::], [::])) ?size_zip ?sz ?minnn //.
by rewrite nth_zip //=; apply: count_valid_put_nan_col.
Qed.

Lemma enough_obs_put_nan p m a k :
  same_shape m a ->
  nth false (enough_obs p (put_nan m a)) k -> nth false (enough_obs p a) k.
Proof.
move=> ma; have shp := same_shape_put_nan ma.
have sz := same_shape_size shp.
have [lt_k|le_k] := ltnP k (size a); last first.
  by rewrite nth_default // size_map sz.
rewrite /enough_obs !(nth_map [::]) ?sz // => /leq_trans; apply.
by rewrite leq_mul2l /= count_valid_put_nan.
Qed.

Section Outcomes.

Variables ols rirls : matrix -> matrix -> option (matrix * matrix).
Variables (h : heap) (X y : addr) (Xv yv : matrix).
Hypothesis hX : holds h X (Arr Xv).
Hypothesis hy : holds h y (Arr yv).

Lemma shewhart_outcome L r h' :
  shewhart ols X y L h = (r, h') ->
  (exists e, r = Raise e /\ h' = h) \/
  (exists2 m, same_shape m yv & r = Ok y /\ h' = masked_store h y yv m).
Proof.
rewrite /shewhart /bindM (load_arrE hX) (load_arrE hy) /lift.
case: (provider _) => [fit|e] /=; last by case=> <- <-; left; exists e.
case maskE: (setitem_mask _ _ _) => [y1|e] /=;
  last by case=> <- <-; left; exists e.
have [shp ->] := setitem_maskP maskE.
have lt_y : y < size h by case: hy.
rewrite storeE // /ret => -[<- <-].
by right; exists (shewhart_mask L fit.2).
Qed.

Variables (green swir : addr) (g s : ndarray3) (scaling_factor : float).
Hypothesis hg : holds h green (Cube g).
Hypothesis hs : holds h swir (Cube s).

Lemma ccdc_rirls_outcome r h' :
  ccdc_rirls rirls X y green swir scaling_factor h = (r, h') ->
  [\/ exists2 e, e <> ZeroDivisionError & r = Raise e /\ h' = h,
      exists2 m, same_shape m yv
               & [/\ r = Raise ZeroDivisionError, count_valid (values g) = 0
                    & h' = masked_store h y yv m]
    | exists2 m, same_shape m yv
               & [/\ r = Ok y, 0 < count_valid (values g)
                    & h' = masked_store h y yv m]].
Proof.
rewrite /ccdc_rirls /bindM (load_arrE hX) (load_arrE hy) (load_cubeE hg)
        (load_cubeE hs) /lift /=.
rewrite {1}/reshape2; case: ifP => _ /=;
  last by case=> <- <-; constructor 1; exists ValueError.
rewrite {1}/reshape2; case: ifP => _ /=;
  last by case=> <- <-; constructor 1; exists ValueError.
rewrite {1}/provider; case: (rirls _ _) => [gfit|] /=;
  last by case=> <- <-; constructor 1; exists ProviderError.
rewrite {1}/provider; case: (rirls _ _) => [sfit|] /=;
  last by case=> <- <-; constructor 1; exists ProviderError.
rewrite {1}/logical_or; case: ifP => _ /=;
  last by case=> <- <-; constructor 1; exists ShapeError.
case maskE: (setitem_mask _ _ _) => [y1|e] /=; last first.
  move: maskE; rewrite /setitem_mask; case: ifP => // _ [<-].
  by case=> <- <-; constructor 1; exists IndexError.
have [shp ->] := setitem_maskP maskE.
have lt_y : y < size h by case: hy.
rewrite storeE //; case: eqP => [cnt0|/eqP cntN0] [<- <-].
  by constructor 2; eexists; first exact: shp.
by constructor 3; eexists; first exact: shp; split=> //; rewrite lt0n.
Qed.

End Outcomes.

Lemma masked_store_holds h y yv m :
  holds h y (Arr yv) -> holds (masked_store h y yv m) y (Arr (put_nan m yv)).
Proof. by case=> lt_y _; apply: store_holds. Qed.

Lemma put_nan_keeps m a k t :
  same_shape m a ->
  isnan (nth nan (nth [::] (put_nan m a) k) t)
  \/ nth nan (nth [::] (put_nan m a) k) t = nth nan (nth [::] a k) t.
Proof. by move=> ma; rewrite nth_put_nan //; case: ifP => _; [left | right]. Qed.

(** X7: whatever the outcome of shewhart or ccdc_rirls, the array left at
    the address of y has the shape of the old one and each entry is either
    NaN or the old entry; so no column gains non-missing observations, and a
    column that passes the controller's count test (more than 1.5 p
    observations) after screening passed it before. *)
Theorem screeners_only_remove_observations
    (ols rirls : matrix -> matrix -> option (matrix * matrix))
    (h : heap) (X y green swir : addr) (Xv yv : matrix) (g s : ndarray3)
    (L scaling_factor : float) (r : result addr) (h' : heap) :
  holds h X (Arr Xv) -> holds h y (Arr yv) ->
  holds h green (Cube g) -> holds h swir (Cube s) ->
  shewhart ols X y L h = (r, h')
  \/ ccdc_rirls rirls X y green swir scaling_factor h = (r, h') ->
  exists y1,
    [/\ holds h' y (Arr y1), same_shape y1 yv,
        forall k t, isnan (nth nan (nth [::] y1 k) t)
                    \/ nth nan (nth [::] y1 k) t = nth nan (nth [::] yv k) t,
        forall k, count_valid (nth [::] y1 k) <= count_valid (nth [::] yv k)
      & forall p k, nth false (enough_obs p y1) k ->
                    nth false (enough_obs p yv) k].
Proof.
move=> hX hy hg hs run.
have same : same_shape yv yv by apply: same_shapeP.
have [->|[m shp ->]] : h' = h \/
    exists2 m, same_shape m yv & h' = masked_store h y yv m.
- case: run => [/(shewhart_outcome hX hy)|/(ccdc_rirls_outcome hX hy hg hs)].
  + by case=> [[e [_ ->]]|[m shp [_ ->]]]; [left | right; exists m].
  + by case=> [[e _ [_ ->]]|[m shp [_ _ ->]]|[m shp [_ _ ->]]];
       [left | right; exists m | right; exists m].
- by exists yv; split=> // k t; right.
exists (put_nan m yv); split.
- exact: masked_store_holds.
- exact: same_shape_put_nan.
- by move=> k t; apply: put_nan_keeps.
- by move=> k; apply: count_valid_put_nan.
- by move=> p k; apply: enough_obs_put_nan.
Qed.

Lemma screeners_only_remove_observations_witness :
  [/\ holds h8 0 (Arr X8), holds h8 1 (Arr Y8), holds h8 3 (Cube G4),
      holds h8 4 (Cube S4)
    & shewhart ols_small 0 1 (f 2) h8
        = (Ok 1, masked_store h8 1 Y8
                   (shewhart_mask (f 2)
                      (if ols_small X8 Y8 is Some fit then fit.2 else [::])))
      \/ ccdc_rirls ols_small 0 1 3 4 (f 1) h8
        = (Ok 1, masked_store h8 1 Y8
                   (shewhart_mask (f 2)
                      (if ols_small X8 Y8 is Some fit then fit.2 else [::])))]
  /\ exists y1,
    [/\ holds (masked_store h8 1 Y8
                 (shewhart_mask (f 2)
                    (if ols_small X8 Y8 is Some fit then fit.2 else [::])))
          1 (Arr y1),
        same_shape y1 Y8,
        forall k t, isnan (nth nan (nth [::] y1 k) t)
                    \/ nth nan (nth [::] y1 k) t = nth nan (nth [::] Y8 k) t,
        forall k, count_valid (nth [::] y1 k) <= count_valid (nth [::] Y8 k)
      & forall p k, nth false (enough_obs p y1) k ->
                    nth false (enough_obs p Y8) k].
Proof.
have hX : holds h8 0 (Arr X8) by split.
have hy : holds h8 1 (Arr Y8) by split.
have hg : holds h8 3 (Cube G4) by split.
have hs : holds h8 4 (Cube S4) by split.
have run : shewhart ols_small 0 1 (f 2) h8
        = (Ok 1, masked_store h8 1 Y8
                   (shewhart_mask (f 2)
                      (if ols_small X8 Y8 is Some fit then fit.2 else [::])))
      \/ ccdc_rirls ols_small 0 1 3 4 (f 1) h8
        = (Ok 1, masked_store h8 1 Y8
                   (shewhart_mask (f 2)
                      (if ols_small X8 Y8 is Some fit then fit.2 else [::]))).
  by left; vm_compute.
split; first by split.
exact: (@screeners_only_remove_observations ols_small ols_small h8 0 1 3 4
          X8 Y8 G4 S4 (f 2) (f 1) _ _ hX hy hg hs run).
Defined.

(** X8: when shewhart raises, and when ccdc_rirls raises anything but
    ZeroDivisionError, the store is exactly as before the call: every check
    that can fail comes before the write to y. *)
Theorem screeners_fail_before_writing
    (ols rirls : matrix -> matrix -> option (matrix * matrix))
    (h : heap) (X y green swir : addr) (Xv yv : matrix) (g s : ndarray3)
    (L scaling_factor : float) (e : exn) (h' : heap) :
  holds h X (Arr Xv) -> holds h y (Arr yv) ->
  holds h green (Cube g) -> holds h swir (Cube s) ->
  shewhart ols X y L h = (Raise e, h')
  \/ (ccdc_rirls rirls X y green swir scaling_factor h = (Raise e, h')
      /\ e <> ZeroDivisionError) ->
  h' = h.
Proof.
move=> hX hy hg hs [|[]].
  by case/(shewhart_outcome hX hy) => [[e' [_ ->]]|[m _ []]].
by case/(ccdc_rirls_outcome hX hy hg hs)
  => [[e' _ [_ ->]]|[m _ [[->]]]|[m _ []]].
Qed.

Lemma screeners_fail_before_writing_witness :
  [/\ holds h8 0 (Arr X8), holds h8 1 (Arr Y8), holds h8 3 (Cube G4),
      holds h8 4 (Cube S4)
    & shewhart (fun _ _ => None) 0 1 (f 2) h8 = (Raise ProviderError, h8)
      \/ (ccdc_rirls (fun _ _ => None) 0 1 3 4 (f 1) h8
            = (Raise ProviderError, h8)
          /\ ProviderError <> ZeroDivisionError)]
  /\ h8 = h8.
Proof.
have hX : holds h8 0 (Arr X8) by split.
have hy : holds h8 1 (Arr Y8) by split.
have hg : holds h8 3 (Cube G4) by split.
have hs : holds h8 4 (Cube S4) by split.
have run :
    shewhart (fun _ _ => None) 0 1 (f 2) h8 = (Raise ProviderError, h8)
    \/ (ccdc_rirls (fun _ _ => None) 0 1 3 4 (f 1) h8
          = (Raise ProviderError, h8)
        /\ ProviderError <> ZeroDivisionError).
  by right; split; [vm_compute|].
split; first by split.
exact: (@screeners_fail_before_writing (fun _ _ => None) (fun _ _ => None)
          h8 0 1 3 4 X8 Y8 G4 S4 (f 2) (f 1) ProviderError h8 hX hy hg hs run).
Defined.

(** X9: when both robust fits succeed with residuals of the shape of y but
    green holds no non-missing value, ccdc_rirls raises ZeroDivisionError
    (the share computed for the log message divides by the count of
    non-missing green values) after y has been overwritten: the store the
    exception leaves holds the masked y. *)
Theorem no_valid_green_raises_after_writing
    (rirls : matrix -> matrix -> option (matrix * matrix))
    (h : heap) (X y green swir : addr) (scaling_factor : float)
    (Xv yv : matrix) (g s : ndarray3) (green_flat swir_flat : matrix)
    (gfit sfit : matrix * matrix) :
  holds h X (Arr Xv) -> holds h y (Arr yv) ->
  holds h green (Cube g) -> holds h swir (Cube s) ->
  reshape2 (dim0 g) (dim1 g * dim2 g) [seq to_f32 v | v <- values g]
    = Ok green_flat ->
  reshape2 (dim0 g) (dim1 g * dim2 g) [seq to_f32 v | v <- values s]
    = Ok swir_flat ->
  rirls Xv green_flat = Some gfit -> rirls Xv swir_flat = Some sfit ->
  same_shape gfit.2 yv -> same_shape sfit.2 yv ->
  count_valid (values g) = 0 ->
  ccdc_rirls rirls X y green swir scaling_factor h
    = (Raise ZeroDivisionError,
       masked_store h y yv
         (zip2 (is_outlier_at scaling_factor) gfit.2 sfit.2)).
Proof.
move=> hX hy hg hs eq_g eq_s fit_g fit_s shp_g shp_s cnt.
have shp_gs : same_shape gfit.2 sfit.2.
  exact: same_shape_trans shp_g (same_shape_sym shp_s).
pose a := [seq [seq fgt v (fmul c004 scaling_factor) | v <- c] | c <- gfit.2].
pose b := [seq [seq flt v (fmul (fopp c004) scaling_factor) | v <- c]
          | c <- sfit.2].
have shp_a : same_shape a gfit.2 by exact: same_shape_map.
have shp_b : same_shape b sfit.2 by exact: same_shape_map.
have shp_ab : same_shape a b.
  apply: same_shape_trans shp_a _; apply: same_shape_trans shp_gs _.
  exact: same_shape_sym.
have shp_o : same_shape (zip2 orb a b) yv.
  apply: same_shape_trans (same_shape_zip2 orb shp_ab) _.
  exact: same_shape_trans shp_a shp_g.
have eq_o : zip2 orb a b = zip2 (is_outlier_at scaling_factor) gfit.2 sfit.2.
  exact: zip2_map.
rewrite /ccdc_rirls /bindM (load_arrE hX) (load_arrE hy) (load_cubeE hg)
        (load_cubeE hs) /lift /= eq_g eq_s fit_g fit_s /=.
have lt_y : y < size h by case: hy.
have -> : logical_or a b = Ok (zip2 orb a b) by exact: logical_orE.
by rewrite (setitem_maskE shp_o) (storeE _ lt_y) -eq_o cnt.
Qed.

Lemma no_valid_green_raises_after_writing_witness :
  exists gfit,
    ols_small X4 [:: nseq 4 nan] = Some gfit /\
    ccdc_rirls ols_small 0 1 2 3 (f 1) h0
      = (Raise ZeroDivisionError,
         masked_store h0 1 Y4 (zip2 (is_outlier_at (f 1)) gfit.2 S4_fit.2)).
Proof.
have hX : holds h0 0 (Arr X4) by split.
have hy : holds h0 1 (Arr Y4) by split.
have hg : holds h0 2 (Cube G0) by split.
have hs : holds h0 3 (Cube S4) by split.
eexists; split; first by vm_compute.
by apply: (@no_valid_green_raises_after_writing ols_small h0 0 1 2 3 (f 1)
            X4 Y4 G0 S4 [:: nseq 4 nan] [:: values S4] _ S4_fit hX hy hg hs);
   vm_compute.
Defined.



End OutliersFacts.
